(** * megumi: an AVR XMEGA emulator

    A shallow embedding of the core of the emulator (src/device.cpp and
    src/block/clk.cpp): the CLK block's register file, the pending
    interrupt queues and their arbitration, the CPU step callback with the
    instruction decoder, and the clock event scheduler.

    Conventions.
    - C++ unsigned integers are values of [Z] and every wrap-around is
      written out ([wrap8], [wrap16], [wrap32]).
    - [std::set<ivnum_t>] is a [gset Z]; [std::vector] and [std::array]
      are lists read with [!!] and written with [<[_:=_]>]; an access out
      of range is undefined behaviour in C++ and is [None] here.
    - A failed [assert] is [None] as well.
    - Declarations of the repository that are not part of the sources at
      hand (common.h, clock.h, block.h, the block headers) enter either as
      fields of a record of parameters or as definitions whose comment says
      where they are modelled from. *)

From Stdlib Require Import ZArith Lia ZifyNat Bool List Permutation.
From stdpp Require Import base numbers option list gmap strings sorting.

Local Open Scope Z_scope.

(** ** Machine integers *)

Definition wrap8 (x : Z) : Z := x mod 2 ^ 8.
Definition wrap16 (x : Z) : Z := x mod 2 ^ 16.
Definition wrap32 (x : Z) : Z := x mod 2 ^ 32.

(** ** Logging channel

    Every message the embedded functions emit is recorded, with its
    severity, in the order of emission. *)

Inductive Severity := DEBUG | INFO | NOTICE | WARNING | ERROR | CRITICAL.

Definition LogEntry : Type := Severity * string.

(** ** The CLK block (src/block/clk.cpp) *)

Module CLK.

Record State := mkState {
  sclk : Z;
  psctrl : Z;
  prescalerA_div : Z;
  prescalerB_div : Z;
  prescalerC_div : Z;
  locked : bool;
  rtcsrc : Z;
  rtcen : bool
}.

Definition set_sclk (v : Z) (c : State) : State :=
  mkState v (psctrl c) (prescalerA_div c) (prescalerB_div c)
          (prescalerC_div c) (locked c) (rtcsrc c) (rtcen c).

Definition set_psctrl (v a b cdiv : Z) (c : State) : State :=
  mkState (sclk c) v a b cdiv (locked c) (rtcsrc c) (rtcen c).

Definition set_locked (v : bool) (c : State) : State :=
  mkState (sclk c) (psctrl c) (prescalerA_div c) (prescalerB_div c)
          (prescalerC_div c) v (rtcsrc c) (rtcen c).

Definition set_rtcen (v : bool) (c : State) : State :=
  mkState (sclk c) (psctrl c) (prescalerA_div c) (prescalerB_div c)
          (prescalerC_div c) (locked c) (rtcsrc c) v.

Definition set_rtcsrc (v : Z) (c : State) : State :=
  mkState (sclk c) (psctrl c) (prescalerA_div c) (prescalerB_div c)
          (prescalerC_div c) (locked c) v (rtcen c).

(** [Device::CCP_IOREG] and [Device::CCP_SPM], from the device header. *)
Definition CCP_IOREG : Z := 1.
Definition CCP_SPM : Z := 2.

(** clk.h is not among the sources.  What [setIo] and [reset] take from it
    is collected in a record: the size of the register window, the
    enumerators they name, and the two bit fields of PSCTRL. *)
Record Header := mkHeader {
  IO_SIZE : Z;
  SCLKSEL_RC2M : Z;
  SCLKSEL_PLL : Z;
  RTCSRC_ULP : Z;
  RTCSRC_RCOSC : Z;
  RTCSRC_TOSC32 : Z;
  psadiv : Z -> Z;
  psbcdiv : Z -> Z
}.

Section Block.

Variable h : Header.

(** [CLK::setIo].  [ccpState] is the value of [device_->ccpState()] at the
    time of the write. *)
Definition setIo (addr v ccpState : Z) (c : State)
  : option (State * list LogEntry) :=
  if negb (addr <? IO_SIZE h) then None
  else if (addr =? 0) && negb (locked c) then
    let vsclk := Z.land v 7 in
    if vsclk >? SCLKSEL_PLL h
    then Some (c, [(ERROR, "invalid SCLKSEL value")])
    else Some (set_sclk vsclk c, [])
  else if (addr =? 1) && negb (locked c) then
    let vreg := Z.land v 127 in
    if psadiv h vreg >? 9
    then Some (c, [(ERROR, "invalid PSADIV value")])
    else
      let a := Z.shiftl 1 (psadiv h vreg) in
      let b := if Z.land (psbcdiv h vreg) 2 =? 0 then 1
               else Z.shiftl 1 (4 - psbcdiv h vreg) in
      let cdiv := Z.shiftl 1 (Z.land (psbcdiv h vreg) 1) in
      Some (set_psctrl vreg a b cdiv c, [])
  else if addr =? 2 then
    if negb (locked c) && negb (v =? 0) then
      if negb (Z.land ccpState CCP_IOREG =? 0)
      then Some (set_locked true c,
                 [(NOTICE, "locked CLK.CTRL and CLK.PSCTRL")])
      else Some (c, [(ERROR, "cannot set CLK.LOCK: protected by CCP")])
    else if locked c && (v =? 0)
    then Some (c, [(ERROR, "CLK.LOCK cannot be cleared")])
    else Some (c, [])
  else if addr =? 3 then
    let c1 := set_rtcen (negb (Z.land v 1 =? 0)) c in
    let vsrc := Z.land (Z.shiftr v 1) 7 in
    if (vsrc <=? RTCSRC_RCOSC h) || (vsrc =? RTCSRC_TOSC32 h)
    then Some (set_rtcsrc vsrc c1, [])
    else Some (c1, [(ERROR, "invalid RTCSRC value")])
  else Some (c, [(ERROR, "I/O write: not writable")]).

(** [CLK::reset]. *)
Definition reset (c : State) : State :=
  mkState (SCLKSEL_RC2M h) 0 1 1 1 false (RTCSRC_ULP h) false.

(** One I/O write as the guest issues it: address, value, and the CCP state
    of the device at that moment. *)
Definition Write : Type := Z * Z * Z.

Definition write_addr (w : Write) : Z := fst (fst w).
Definition write_value (w : Write) : Z := snd (fst w).
Definition write_ccp (w : Write) : Z := snd w.

(** A sequence of writes, stopping at the first failed assertion. *)
Fixpoint setIo_seq (ws : list Write) (c : State) : option State :=
  match ws with
  | [] => Some c
  | w :: ws' =>
      match setIo (write_addr w) (write_value w) (write_ccp w) c with
      | Some (c', _) => setIo_seq ws' c'
      | None => None
      end
  end.

(** The fields the lock protects. *)
Definition protected (c : State) : Z * Z * Z * Z * Z :=
  (sclk c, psctrl c, prescalerA_div c, prescalerB_div c, prescalerC_div c).

End Block.

End CLK.

(** ** Interrupt levels and the pending queues (src/device.cpp) *)

(** The enumeration [IntLvl].  The [switch] of [setIvLvl] has a [default]
    arm that only logs "invalid INTLVL"; no enumerator reaches it. *)
Inductive IntLvl := INTLVL_NONE | INTLVL_LO | INTLVL_MED | INTLVL_HI | INTLVL_NMI.

(** Modelled from the spec: the enumerator values of [IntLvl], declared in
    common.h ("NONE=0, LO=1, MED=2, HI=3, NMI=4"). *)
Definition lvl_val (l : IntLvl) : Z :=
  match l with
  | INTLVL_NONE => 0
  | INTLVL_LO => 1
  | INTLVL_MED => 2
  | INTLVL_HI => 3
  | INTLVL_NMI => 4
  end.

Global Instance IntLvl_eq_dec : EqDecision IntLvl.
Proof. solve_decision. Defined.

(** [iv_pending_]: four [std::set<ivnum_t>]. *)
Record IvPending := mkIvPending {
  iv_lo : gset Z;
  iv_med : gset Z;
  iv_hi : gset Z;
  iv_nmi : gset Z
}.

Definition iv_pending_empty : IvPending := mkIvPending ∅ ∅ ∅ ∅.

(** [std::set::erase(key)] returns the number of elements removed and
    [std::set::insert(key).second] tells whether the key was new. *)
Definition set_erase (iv : Z) (q : gset Z) : gset Z * bool :=
  (q ∖ {[iv]}, bool_decide (iv ∈ q)).

Definition set_insert (iv : Z) (q : gset Z) : gset Z * bool :=
  ({[iv]} ∪ q, bool_decide (iv ∉ q)).

(** [*q.begin()]: the least element of an ordered set. *)
Definition set_begin (q : gset Z) : option Z :=
  head (merge_sort Z.le (elements q)).

Definition with_lo (q : gset Z) (p : IvPending) : IvPending :=
  mkIvPending q (iv_med p) (iv_hi p) (iv_nmi p).
Definition with_med (q : gset Z) (p : IvPending) : IvPending :=
  mkIvPending (iv_lo p) q (iv_hi p) (iv_nmi p).
Definition with_hi (q : gset Z) (p : IvPending) : IvPending :=
  mkIvPending (iv_lo p) (iv_med p) q (iv_nmi p).
Definition with_nmi (q : gset Z) (p : IvPending) : IvPending :=
  mkIvPending (iv_lo p) (iv_med p) (iv_hi p) q.

(** The queue of a level; [INTLVL_NONE] has none. *)
Definition queue_of (l : IntLvl) (p : IvPending) : gset Z :=
  match l with
  | INTLVL_NONE => ∅
  | INTLVL_LO => iv_lo p
  | INTLVL_MED => iv_med p
  | INTLVL_HI => iv_hi p
  | INTLVL_NMI => iv_nmi p
  end.

Definition with_queue (l : IntLvl) (q : gset Z) (p : IvPending) : IvPending :=
  match l with
  | INTLVL_NONE => p
  | INTLVL_LO => with_lo q p
  | INTLVL_MED => with_med q p
  | INTLVL_HI => with_hi q p
  | INTLVL_NMI => with_nmi q p
  end.

(** The chain [if(q1.erase(iv)) break; if(q2.erase(iv)) break; ...] over
    the queues of the levels [ls], in that order. *)
Fixpoint erase_first (iv : Z) (ls : list IntLvl) (p : IvPending) : IvPending :=
  match ls with
  | [] => p
  | l :: ls' =>
      let '(q, erased) := set_erase iv (queue_of l p) in
      let p' := with_queue l q p in
      if erased then p' else erase_first iv ls' p'
  end.

(** The arm of a level: [if(!q.insert(iv).second) break;] followed by the
    chain of erasures over the other queues. *)
Definition insert_then_erase (iv : Z) (l : IntLvl) (others : list IntLvl)
    (p : IvPending) : IvPending :=
  let '(q, fresh) := set_insert iv (queue_of l p) in
  let p' := with_queue l q p in
  if fresh then erase_first iv others p' else p'.

(** [Device::setIvLvl]. *)
Definition setIvLvl (iv : Z) (lvl : IntLvl) (p : IvPending) : IvPending :=
  match lvl with
  | INTLVL_NONE =>
      erase_first iv [INTLVL_LO; INTLVL_MED; INTLVL_HI; INTLVL_NMI] p
  | INTLVL_LO =>
      insert_then_erase iv INTLVL_LO [INTLVL_MED; INTLVL_HI; INTLVL_NMI] p
  | INTLVL_MED =>
      insert_then_erase iv INTLVL_MED [INTLVL_LO; INTLVL_HI; INTLVL_NMI] p
  | INTLVL_HI =>
      insert_then_erase iv INTLVL_HI [INTLVL_LO; INTLVL_MED; INTLVL_NMI] p
  | INTLVL_NMI =>
      insert_then_erase iv INTLVL_NMI [INTLVL_LO; INTLVL_MED; INTLVL_HI] p
  end.

(** A sequence of [setIvLvl] calls on the queues of a fresh device. *)
Definition setIvLvl_seq (calls : list (Z * IntLvl)) (p : IvPending) : IvPending :=
  foldl (fun acc c => setIvLvl (fst c) (snd c) acc) p calls.

(** No vector is pending at two levels. *)
Definition queues_disjoint (p : IvPending) : Prop :=
  ∀ iv l1 l2, iv ∈ queue_of l1 p → iv ∈ queue_of l2 p → l1 = l2.

(** [Device::currentIntLvl], on the PMIC status byte.  Modelled from the
    spec: the status bit of a level is [1 << (level-1)], which is also how
    the function itself tests it. *)
Definition lvl_bit (l : IntLvl) : Z := Z.shiftl 1 (lvl_val l - 1).

Definition currentIntLvl (status : Z) : IntLvl :=
  if status =? 0 then INTLVL_NONE
  else if negb (Z.land status (lvl_bit INTLVL_NMI) =? 0) then INTLVL_NMI
  else if negb (Z.land status (lvl_bit INTLVL_HI) =? 0) then INTLVL_HI
  else if negb (Z.land status (lvl_bit INTLVL_MED) =? 0) then INTLVL_MED
  else if negb (Z.land status (lvl_bit INTLVL_LO) =? 0) then INTLVL_LO
  else INTLVL_NONE.

(** ** The instruction decoder (src/device.cpp, executeNextInstruction)

    The source decodes with one long chain of masked comparisons; the
    first branch that matches is taken.  [Mnemonic] names the branches in
    the order of the chain and [decode] is the chain itself. *)

Inductive Mnemonic :=
| NOP | BSET | BCLR | SBI | CBI
| COM | NEG | SWAP | INC | ASR | LSR | ROR | DEC
| CP | CPC | ADD | ADC | SUB | SBC
| MUL | MULS | MULSU | FMUL | FMULS | FMULSU
| AND | EOR | OR | MOV
| CPI | SUBI | SBCI | ANDI | ORI
| MOVW | ADIW | SBIW | BLD | BST | LDI
| LDS | LD_X | LD_X_inc | LD_X_dec | LDD_Y | LD_Y_inc | LD_Y_dec
| LDD_Z | LD_Z_inc | LD_Z_dec
| STS | ST_X | ST_X_inc | ST_X_dec | STD_Y | ST_Y_inc | ST_Y_dec
| STD_Z | ST_Z_inc | ST_Z_dec
| LPM_r0 | LPM | ELPM_r0 | ELPM | SPM
| XCH | LAC | LAS | LAT
| JMP | RJMP | IJMP | EIJMP | BRB
| SBRx | SBIx | CPSE
| CALL | RCALL | ICALL | EICALL | RET | RETI
| POP | PUSH | IN | OUT | WDR | SLEEP | BREAK | DES
| UNKNOWN.

(** [(opcode & mask) == value] *)
Definition masked (opcode mask value : Z) : bool :=
  Z.land opcode mask =? value.

Definition decode (opcode : Z) : Mnemonic :=
  if opcode =? 0 then NOP
  else if masked opcode 0xFF8F 0x9408 then BSET
  else if masked opcode 0xFF8F 0x9488 then BCLR
  else if masked opcode 0xFF00 0x9A00 then SBI
  else if masked opcode 0xFF00 0x9800 then CBI
  else if masked opcode 0xFE0F 0x9400 then COM
  else if masked opcode 0xFE0F 0x9401 then NEG
  else if masked opcode 0xFE0F 0x9402 then SWAP
  else if masked opcode 0xFE0F 0x9403 then INC
  else if masked opcode 0xFE0F 0x9405 then ASR
  else if masked opcode 0xFE0F 0x9406 then LSR
  else if masked opcode 0xFE0F 0x9407 then ROR
  else if masked opcode 0xFE0F 0x940A then DEC
  else if masked opcode 0xFC00 0x1400 then CP
  else if masked opcode 0xFC00 0x0400 then CPC
  else if masked opcode 0xFC00 0x0C00 then ADD
  else if masked opcode 0xFC00 0x1C00 then ADC
  else if masked opcode 0xFC00 0x1800 then SUB
  else if masked opcode 0xFC00 0x0800 then SBC
  else if masked opcode 0xFC00 0x9C00 then MUL
  else if masked opcode 0xFF00 0x0200 then MULS
  else if masked opcode 0xFF88 0x0300 then MULSU
  else if masked opcode 0xFF88 0x0308 then FMUL
  else if masked opcode 0xFF88 0x0380 then FMULS
  else if masked opcode 0xFF88 0x0380 then FMULSU
  else if masked opcode 0xFC00 0x2000 then AND
  else if masked opcode 0xFC00 0x2400 then EOR
  else if masked opcode 0xFC00 0x2800 then OR
  else if masked opcode 0xFC00 0x2C00 then MOV
  else if masked opcode 0xF000 0x3000 then CPI
  else if masked opcode 0xF000 0x5000 then SUBI
  else if masked opcode 0xF000 0x4000 then SBCI
  else if masked opcode 0xF000 0x7000 then ANDI
  else if masked opcode 0xF000 0x6000 then ORI
  else if masked opcode 0xFF00 0x0100 then MOVW
  else if masked opcode 0xFF00 0x9600 then ADIW
  else if masked opcode 0xFF00 0x9700 then SBIW
  else if masked opcode 0xFE08 0xF800 then BLD
  else if masked opcode 0xFE08 0xFA00 then BST
  else if masked opcode 0xF000 0xE000 then LDI
  else if masked opcode 0xFE0F 0x9000 then LDS
  else if masked opcode 0xFE0F 0x900C then LD_X
  else if masked opcode 0xFE0F 0x900D then LD_X_inc
  else if masked opcode 0xFE0F 0x900E then LD_X_dec
  else if masked opcode 0xD208 0x8008 then LDD_Y
  else if masked opcode 0xFE0F 0x9009 then LD_Y_inc
  else if masked opcode 0xFE0F 0x900A then LD_Y_dec
  else if masked opcode 0xD208 0x8000 then LDD_Z
  else if masked opcode 0xFE0F 0x9001 then LD_Z_inc
  else if masked opcode 0xFE0F 0x9002 then LD_Z_dec
  else if masked opcode 0xFE0F 0x9200 then STS
  else if masked opcode 0xFE0F 0x920C then ST_X
  else if masked opcode 0xFE0F 0x920D then ST_X_inc
  else if masked opcode 0xFE0F 0x920E then ST_X_dec
  else if masked opcode 0xD208 0x8208 then STD_Y
  else if masked opcode 0xFE0F 0x9209 then ST_Y_inc
  else if masked opcode 0xFE0F 0x920A then ST_Y_dec
  else if masked opcode 0xD208 0x8200 then STD_Z
  else if masked opcode 0xFE0F 0x9201 then ST_Z_inc
  else if masked opcode 0xFE0F 0x9202 then ST_Z_dec
  else if opcode =? 0x95C8 then LPM_r0
  else if masked opcode 0xFE0E 0x9004 then LPM
  else if opcode =? 0x95D8 then ELPM_r0
  else if masked opcode 0xFE0E 0x9006 then ELPM
  else if (opcode =? 0x95E8) || (opcode =? 0x95F8) then SPM
  else if masked opcode 0xFE0F 0x9204 then XCH
  else if masked opcode 0xFE0F 0x9206 then LAC
  else if masked opcode 0xFE0F 0x9205 then LAS
  else if masked opcode 0xFE0F 0x9207 then LAT
  else if masked opcode 0xFE0E 0x940C then JMP
  else if masked opcode 0xF000 0xC000 then RJMP
  else if opcode =? 0x9409 then IJMP
  else if opcode =? 0x9419 then EIJMP
  else if masked opcode 0xF800 0xF000 then BRB
  else if masked opcode 0xFC00 0xFC00 then SBRx
  else if masked opcode 0xFD00 0x9900 then SBIx
  else if masked opcode 0xFC00 0x1000 then CPSE
  else if masked opcode 0xFE0E 0x940E then CALL
  else if masked opcode 0xF000 0xD000 then RCALL
  else if opcode =? 0x9509 then ICALL
  else if opcode =? 0x9519 then EICALL
  else if opcode =? 0x9508 then RET
  else if opcode =? 0x9518 then RETI
  else if masked opcode 0xFE0F 0x900F then POP
  else if masked opcode 0xFE0F 0x920F then PUSH
  else if masked opcode 0xF800 0xB000 then IN
  else if masked opcode 0xF800 0xB800 then OUT
  else if opcode =? 0x95A8 then WDR
  else if opcode =? 0x9588 then SLEEP
  else if opcode =? 0x9598 then BREAK
  else if masked opcode 0xFF0F 0x940B then DES
  else UNKNOWN.

(** [opcode_is_32b]: true for the two-word instructions JMP, CALL, LDS
    and STS. *)
Definition opcode_is_32b (opcode : Z) : bool :=
  masked opcode 0xFE0C 0x940C || masked opcode 0xFC0F 0x9000.

(** ** Enumeration of the opcodes

    Flash words are [uint16_t]: a predicate holds of every opcode when it
    holds of the 65536 values. *)
Fixpoint all_bits (k : nat) (prefix : Z) (f : Z → bool) : bool :=
  match k with
  | O => f prefix
  | S k' =>
      if all_bits k' (2 * prefix) f then all_bits k' (2 * prefix + 1) f
      else false
  end.

Definition all_opcodes (f : Z → bool) : bool := all_bits 16 0 f.

(** Recognisers for the branches the statements below name. *)
Definition is_mnemonic (a b : Mnemonic) : bool :=
  match a, b with
  | FMULS, FMULS | FMULSU, FMULSU | UNKNOWN, UNKNOWN
  | SBRx, SBRx | SBIx, SBIx | CPSE, CPSE
  | RETI, RETI | POP, POP | PUSH, PUSH => true
  | _, _ => false
  end.

(** The decoding facts used below, as one check per opcode. *)
Definition decode_checks (op : Z) : bool :=
  let m := decode op in
  implb (masked op 0xFF88 0x0380) (is_mnemonic m FMULS)
  && implb (masked op 0xFF88 0x0388) (is_mnemonic m UNKNOWN)
  && implb (masked op 0xFC00 0xFC00) (is_mnemonic m SBRx)
  && implb (masked op 0xFD00 0x9900) (is_mnemonic m SBIx)
  && implb (masked op 0xFC00 0x1000) (is_mnemonic m CPSE)
  && implb (masked op 0xFE0F 0x900F) (is_mnemonic m POP)
  && implb (masked op 0xFE0F 0x920F) (is_mnemonic m PUSH).

(** ** Device state *)

(** [Device::ModelConf] and the constants the constructor derives. *)
Record ModelConf := mkModelConf {
  flash_size : Z;
  flash_page_size : Z;
  flash_boot_size : Z;
  mem_eeprom_size : Z;
  mem_sram_size : Z;
  has_exsram : bool
}.

Definition flash_boot_start (cfg : ModelConf) : Z :=
  wrap32 (flash_size cfg - flash_boot_size cfg).

Definition MEM_SRAM_START : Z := 0x2000.
Definition IV_MAX_COUNT : Z := 0x80.

(** The enable bits of PMIC.CTRL as the core reads them. *)
Record PmicCtrl := mkPmicCtrl {
  lolvlen : bool;
  medlvlen : bool;
  hilvlen : bool;
  ivsel : bool
}.

(** What the instruction stream, the blocks and the interrupt hooks can
    reach: the members of [Device] other than the two stepping counters,
    with the registers of the CPU and PMIC blocks the core reads.  [B] is
    the private state of the peripheral blocks, which the sources at hand
    do not contain.  A block is named by its position in [blocks_]. *)
Record Machine (B : Type) := mkMachine {
  flash_data : list Z;
  regfile : list Z;
  sram_data : list Z;
  pc : Z;
  sp : Z;
  sreg : Z;
  ccp_ioreg_cycles : Z;
  ccp_spm_cycles : Z;
  pmic_status : Z;
  pmic_ctrl : PmicCtrl;
  iv_pending : IvPending;
  iv_blocks : list (option nat);
  breaked : bool;
  log : list LogEntry;
  blocks : B
}.

Arguments mkMachine {B}.
Arguments flash_data {B}.
Arguments regfile {B}.
Arguments sram_data {B}.
Arguments pc {B}.
Arguments sp {B}.
Arguments sreg {B}.
Arguments ccp_ioreg_cycles {B}.
Arguments ccp_spm_cycles {B}.
Arguments pmic_status {B}.
Arguments pmic_ctrl {B}.
Arguments iv_pending {B}.
Arguments iv_blocks {B}.
Arguments breaked {B}.
Arguments log {B}.
Arguments blocks {B}.

(** [Device]: the machine with [instruction_cycles_] and
    [interrupt_wait_instruction_], which only [reset] and [stepCPU] write. *)
Record Device (B : Type) := mkDevice {
  machine : Machine B;
  instruction_cycles : Z;
  interrupt_wait_instruction : bool
}.

Arguments mkDevice {B}.
Arguments machine {B}.
Arguments instruction_cycles {B}.
Arguments interrupt_wait_instruction {B}.

(** Code of the repository the core calls and the sources do not contain.
    - [stack_set n sram i v] and [stack_get n sram i] are common.h's
      [stack_set<n>(p, v)] and [stack_get<n>(p)] for the pointer
      [p = &sram[i]];
    - [getIoMem a m] is the value the owning block returns for a read of
      I/O address [a];
    - [block_iv_base] and [block_executeIv] are [Block::iv_base] and
      [Block::executeIv];
    - [exec_other] executes the instructions whose semantics this
      development does not need: it receives the branch taken, the opcode
      and the machine, and returns the new machine with [opcode_cycles]. *)
Record Platform (B : Type) := mkPlatform {
  stack_set : Z → list Z → Z → Z → list Z;
  stack_get : Z → list Z → Z → Z;
  getIoMem : Z → Machine B → Z;
  block_iv_base : nat → Z;
  block_executeIv : nat → Z → Machine B → Machine B;
  exec_other : Mnemonic → Z → Machine B → option (Machine B * Z)
}.

Arguments mkPlatform {B}.
Arguments stack_set {B}.
Arguments stack_get {B}.
Arguments getIoMem {B}.
Arguments block_iv_base {B}.
Arguments block_executeIv {B}.
Arguments exec_other {B}.

Section Core.

Context {B : Type}.
Variable P : Platform B.
Variable cfg : ModelConf.

Definition set_pc (v : Z) (m : Machine B) : Machine B :=
  mkMachine (flash_data m) (regfile m) (sram_data m) v (sp m) (sreg m)
    (ccp_ioreg_cycles m) (ccp_spm_cycles m) (pmic_status m) (pmic_ctrl m)
    (iv_pending m) (iv_blocks m) (breaked m) (log m) (blocks m).

Definition set_sp (v : Z) (m : Machine B) : Machine B :=
  mkMachine (flash_data m) (regfile m) (sram_data m) (pc m) v (sreg m)
    (ccp_ioreg_cycles m) (ccp_spm_cycles m) (pmic_status m) (pmic_ctrl m)
    (iv_pending m) (iv_blocks m) (breaked m) (log m) (blocks m).

Definition set_regfile (v : list Z) (m : Machine B) : Machine B :=
  mkMachine (flash_data m) v (sram_data m) (pc m) (sp m) (sreg m)
    (ccp_ioreg_cycles m) (ccp_spm_cycles m) (pmic_status m) (pmic_ctrl m)
    (iv_pending m) (iv_blocks m) (breaked m) (log m) (blocks m).

Definition set_sram_data (v : list Z) (m : Machine B) : Machine B :=
  mkMachine (flash_data m) (regfile m) v (pc m) (sp m) (sreg m)
    (ccp_ioreg_cycles m) (ccp_spm_cycles m) (pmic_status m) (pmic_ctrl m)
    (iv_pending m) (iv_blocks m) (breaked m) (log m) (blocks m).

Definition set_pmic_status (v : Z) (m : Machine B) : Machine B :=
  mkMachine (flash_data m) (regfile m) (sram_data m) (pc m) (sp m) (sreg m)
    (ccp_ioreg_cycles m) (ccp_spm_cycles m) v (pmic_ctrl m)
    (iv_pending m) (iv_blocks m) (breaked m) (log m) (blocks m).

Definition set_iv_pending (v : IvPending) (m : Machine B) : Machine B :=
  mkMachine (flash_data m) (regfile m) (sram_data m) (pc m) (sp m) (sreg m)
    (ccp_ioreg_cycles m) (ccp_spm_cycles m) (pmic_status m) (pmic_ctrl m)
    v (iv_blocks m) (breaked m) (log m) (blocks m).

Definition set_breaked (v : bool) (m : Machine B) : Machine B :=
  mkMachine (flash_data m) (regfile m) (sram_data m) (pc m) (sp m) (sreg m)
    (ccp_ioreg_cycles m) (ccp_spm_cycles m) (pmic_status m) (pmic_ctrl m)
    (iv_pending m) (iv_blocks m) v (log m) (blocks m).

(** Messages are appended; the debug traces ([LOG_OPCODE], "acknowledge
    interrupt") are not recorded. *)
Definition add_log (e : LogEntry) (m : Machine B) : Machine B :=
  mkMachine (flash_data m) (regfile m) (sram_data m) (pc m) (sp m) (sreg m)
    (ccp_ioreg_cycles m) (ccp_spm_cycles m) (pmic_status m) (pmic_ctrl m)
    (iv_pending m) (iv_blocks m) (breaked m) (log m ++ [e]) (blocks m).

(** Modelled from the spec: [sreg_.I] is the last of the eight flags
    "{C,Z,N,V,S,H,T,I}" of the status byte (cpu.h is not among the
    sources). *)
Definition sreg_I (m : Machine B) : bool := Z.testbit (sreg m) 7.

(** Modelled from the spec: [CPU::ccpState] (cpu.h is not among the
    sources) reports the I/O-register window and the SPM window, each
    active while its cycle counter is non-zero, as the bit mask
    [CCP_IOREG | CCP_SPM]. *)
Definition ccpState (m : Machine B) : Z :=
  Z.lor (if ccp_ioreg_cycles m =? 0 then 0 else CLK.CCP_IOREG)
        (if ccp_spm_cycles m =? 0 then 0 else CLK.CCP_SPM).

(** [stack()] as an index into [sram_data_]. *)
Definition stack (m : Machine B) : Z := sp m - MEM_SRAM_START.

(** [*stack()] read and written. *)
Definition stack_read (m : Machine B) : option Z :=
  if (0 <=? stack m) then sram_data m !! Z.to_nat (stack m) else None.

Definition stack_write (v : Z) (m : Machine B) : option (Machine B) :=
  if (0 <=? stack m) && (stack m <? Z.of_nat (length (sram_data m)))
  then Some (set_sram_data (<[Z.to_nat (stack m) := v]> (sram_data m)) m)
  else None.

(** [flash_data_[a]] and [regfile_[r]]. *)
Definition flash_at (m : Machine B) (a : Z) : option Z :=
  if 0 <=? a then flash_data m !! Z.to_nat a else None.

Definition reg_at (m : Machine B) (r : Z) : option Z :=
  if 0 <=? r then regfile m !! Z.to_nat r else None.

Definition reg_write (r v : Z) (m : Machine B) : option (Machine B) :=
  if (0 <=? r) && (r <? Z.of_nat (length (regfile m)))
  then Some (set_regfile (<[Z.to_nat r := v]> (regfile m)) m)
  else None.

(** [cpu_.pc_ += k].  common.h is not among the sources: [flashptr_t] is
    taken to be a 32-bit unsigned integer. *)
Definition pc_add (k : Z) (m : Machine B) : Machine B :=
  set_pc (wrap32 (pc m + k)) m.

(** *** Instruction semantics

    Each definition is the body of one branch of [executeNextInstruction]
    and returns the machine with [opcode_cycles]. *)

(** The common tail of the three skip branches; [short_cycles] is what the
    branch assigns to [opcode_cycles] when the skipped opcode is one word
    long. *)
Definition skip_next (short_cycles : Z) (m : Machine B)
  : option (Machine B * Z) :=
  match flash_at m (wrap32 (pc m + 1)) with
  | None => None
  | Some opcode2 =>
      if opcode_is_32b opcode2
      then Some (pc_add 3 m, 3)
      else Some (pc_add 2 m, short_cycles)
  end.

(** SBRC, SBRS *)
Definition exec_SBRx (opcode : Z) (m : Machine B) : option (Machine B * Z) :=
  let r := Z.land (Z.shiftr opcode 4) 0x1F in
  let b := Z.land opcode 7 in
  match reg_at m r with
  | None => None
  | Some Rr =>
      if Z.land (Z.lxor (Z.shiftr Rr b) (Z.shiftr opcode 9)) 1 =? 0
      then skip_next 3 m
      else Some (pc_add 1 m, 1)
  end.

(** SBIC, SBIS *)
Definition exec_SBIx (opcode : Z) (m : Machine B) : option (Machine B * Z) :=
  let a := Z.land (Z.shiftr opcode 3) 0x1F in
  let b := Z.land opcode 7 in
  if Z.land (Z.lxor (Z.shiftr (getIoMem P a m) b) (Z.shiftr opcode 9)) 1 =? 0
  then skip_next 2 m
  else Some (pc_add 1 m, 1).

(** CPSE *)
Definition exec_CPSE (opcode : Z) (m : Machine B) : option (Machine B * Z) :=
  let d := Z.land (Z.shiftr opcode 4) 0x1F in
  let r := Z.lor (Z.land opcode 0xF) (Z.land (Z.shiftr opcode 5) 0x10) in
  match reg_at m d, reg_at m r with
  | Some Rd, Some Rr =>
      if Rd =? Rr then skip_next 2 m else Some (pc_add 1 m, 1)
  | _, _ => None
  end.

(** The tail of RET and RETI: [sp_ += n; pc_ = stack_get<8n>(stack())]. *)
Definition pop_pc (m : Machine B) : Machine B * Z :=
  if flash_size cfg <=? 0x20000 then
    let m1 := set_sp (wrap16 (sp m + 2)) m in
    (set_pc (stack_get P 16 (sram_data m1) (stack m1)) m1, 2)
  else
    let m1 := set_sp (wrap16 (sp m + 3)) m in
    (set_pc (stack_get P 24 (sram_data m1) (stack m1)) m1, 3).

Definition exec_RET (m : Machine B) : option (Machine B * Z) :=
  Some (pop_pc m).

(** Modelled from the spec: the bit fields [nmiex], [hilvlex], [medlvlex]
    and [lolvlex] of PMIC.STATUS (pmic.h is not among the sources) are the
    status bits [1 << (level-1)] of their levels. *)
Definition status_ex (l : IntLvl) (m : Machine B) : bool :=
  negb (Z.land (pmic_status m) (lvl_bit l) =? 0).

Definition clear_ex (l : IntLvl) (m : Machine B) : Machine B :=
  set_pmic_status (Z.ldiff (pmic_status m) (lvl_bit l)) m.

(** RETI *)
Definition exec_RETI (m : Machine B) : option (Machine B * Z) :=
  let m1 :=
    if status_ex INTLVL_NMI m then clear_ex INTLVL_NMI m
    else if status_ex INTLVL_HI m then clear_ex INTLVL_HI m
    else if status_ex INTLVL_MED m then clear_ex INTLVL_MED m
    else if status_ex INTLVL_LO m then clear_ex INTLVL_LO m
    else add_log (CRITICAL, "RETI but no active interruption") m in
  Some (pop_pc m1).

(** POP *)
Definition exec_POP (opcode : Z) (m : Machine B) : option (Machine B * Z) :=
  let d := Z.land (Z.shiftr opcode 4) 0x1F in
  let m1 := set_sp (wrap16 (sp m + 1)) m in
  match stack_read m1 with
  | None => None
  | Some v =>
      match reg_write d v m1 with
      | None => None
      | Some m2 => Some (pc_add 1 m2, 1)
      end
  end.

(** PUSH *)
Definition exec_PUSH (opcode : Z) (m : Machine B) : option (Machine B * Z) :=
  let r := Z.land (Z.shiftr opcode 4) 0x1F in
  match reg_at m r with
  | None => None
  | Some v =>
      match stack_write v m with
      | None => None
      | Some m1 => Some (pc_add 1 (set_sp (wrap16 (sp m1 - 1)) m1), 1)
      end
  end.

(** NOP, and the stubs SPM, WDR, SLEEP and DES *)
Definition exec_stub (m : Machine B) : option (Machine B * Z) :=
  Some (pc_add 1 m, 1).

(** BREAK *)
Definition exec_BREAK (m : Machine B) : option (Machine B * Z) :=
  Some (pc_add 1 (set_breaked true m), 1).

(** The final [else]: unknown opcode. *)
Definition exec_UNKNOWN (m : Machine B) : option (Machine B * Z) :=
  Some (pc_add 1 (add_log (CRITICAL, "unknown opcode") m), 1).

(** [Device::executeNextInstruction] *)
Definition executeNextInstruction (m : Machine B) : option (Machine B * Z) :=
  match flash_at m (pc m) with
  | None => None
  | Some opcode =>
      match decode opcode with
      | NOP | SPM | WDR | SLEEP | DES => exec_stub m
      | SBRx => exec_SBRx opcode m
      | SBIx => exec_SBIx opcode m
      | CPSE => exec_CPSE opcode m
      | RET => exec_RET m
      | RETI => exec_RETI m
      | POP => exec_POP opcode m
      | PUSH => exec_PUSH opcode m
      | BREAK => exec_BREAK m
      | UNKNOWN => exec_UNKNOWN m
      | i => exec_other P i opcode m
      end
  end.

(** *** Interrupt arbitration and acknowledgement *)

Definition queue_empty (q : gset Z) : bool := bool_decide (q = ∅).

(** The chain of [processPendingInterrupts] that chooses [intlvl_new] and
    [iv_queue], or returns false. *)
Definition select_level (m : Machine B) : option IntLvl :=
  let intlvl := lvl_val (currentIntLvl (pmic_status m)) in
  let p := iv_pending m in
  if lvl_val INTLVL_NMI <=? intlvl then None
  else if negb (queue_empty (iv_nmi p)) then Some INTLVL_NMI
  else if lvl_val INTLVL_HI <=? intlvl then None
  else if hilvlen (pmic_ctrl m) && negb (queue_empty (iv_hi p))
  then Some INTLVL_HI
  else if lvl_val INTLVL_MED <=? intlvl then None
  else if medlvlen (pmic_ctrl m) && negb (queue_empty (iv_med p))
  then Some INTLVL_MED
  else if lvl_val INTLVL_LO <=? intlvl then None
  else if lolvlen (pmic_ctrl m) && negb (queue_empty (iv_lo p))
  then Some INTLVL_LO
  else None.

(** [iv_queue->erase(iv_queue->begin())] and the update of PMIC.STATUS. *)
Definition acknowledge (l : IntLvl) (iv_num : Z) (m : Machine B) : Machine B :=
  let p := iv_pending m in
  let m1 := set_iv_pending (with_queue l (queue_of l p ∖ {[iv_num]}) p) m in
  set_pmic_status (Z.lor (pmic_status m1) (lvl_bit l)) m1.

(** The address of a vector: two words per vector, in the boot section
    when IVSEL is set. *)
Definition iv_address (iv_num : Z) (m : Machine B) : Z :=
  if ivsel (pmic_ctrl m)
  then wrap32 (2 * iv_num + flash_boot_start cfg)
  else wrap32 (2 * iv_num).

(** [stack_set<n>(stack(), v); sp_ -= n/8]. *)
Definition push_pc (v : Z) (m : Machine B) : Machine B :=
  if flash_size cfg <=? 0x20000 then
    set_sp (wrap16 (sp m - 2))
      (set_sram_data (stack_set P 16 (sram_data m) (stack m) v) m)
  else
    set_sp (wrap16 (sp m - 3))
      (set_sram_data (stack_set P 24 (sram_data m) (stack m) v) m).

(** [iv_blocks_[iv_num]] with the [assert(block)] that follows. *)
Definition iv_block (m : Machine B) (iv_num : Z) : option nat :=
  if 0 <=? iv_num then mjoin (iv_blocks m !! Z.to_nat iv_num) else None.

(** [Device::processPendingInterrupts] *)
Definition processPendingInterrupts (m : Machine B)
  : option (Machine B * bool) :=
  match select_level m with
  | None => Some (m, false)
  | Some l =>
      match set_begin (queue_of l (iv_pending m)) with
      | None => None
      | Some iv_num =>
          let m1 := acknowledge l iv_num m in
          let iv_addr := iv_address iv_num m1 in
          match iv_block m1 iv_num with
          | None => None
          | Some block =>
              let m2 :=
                block_executeIv P block (iv_num - block_iv_base P block) m1 in
              Some (set_pc iv_addr (push_pc (pc m2) m2), true)
          end
      end
  end.

(** *** The CPU step callback *)

(** What a CPU step does, as seen from outside: it acknowledges an
    interrupt, or it starts an instruction that reports a cycle count. *)
Inductive CpuEvent :=
| EvAck
| EvExec (cycles : Z).

(** [while(instruction_cycles_ == 0) { ... }]; [None] when an instruction
    has no result or the fuel is exhausted. *)
Fixpoint exec_loop (fuel : nat) (m : Machine B) (cycles : Z) (wait : bool)
  : option (Machine B * Z * bool * list CpuEvent) :=
  if cycles =? 0 then
    match fuel with
    | O => None
    | S fuel' =>
        match executeNextInstruction m with
        | None => None
        | Some (m', c) =>
            match exec_loop fuel' m' c false with
            | None => None
            | Some (m'', c', w', evs) => Some (m'', c', w', EvExec c :: evs)
            end
        end
    end
  else Some (m, cycles, wait, []).

(** The interrupt check at the head of [stepCPU]. *)
Definition check_interrupts (d : Device B) (m : Machine B)
  : option (Machine B * Z * bool * list CpuEvent) :=
  if (instruction_cycles d =? 0) && negb (interrupt_wait_instruction d)
     && sreg_I m && (ccpState m =? 0)
  then
    match processPendingInterrupts m with
    | None => None
    | Some (m', true) => Some (m', 5, true, [EvAck])
    | Some (m', false) =>
        Some (m', instruction_cycles d, interrupt_wait_instruction d, [])
    end
  else Some (m, instruction_cycles d, interrupt_wait_instruction d, []).

(** [Device::stepCPU], with the events of the step. *)
Definition stepCPU_events (fuel : nat) (d : Device B)
  : option (Device B * list CpuEvent) :=
  match check_interrupts d (set_breaked false (machine d)) with
  | None => None
  | Some (m1, c1, w1, evs1) =>
      match exec_loop fuel m1 c1 w1 with
      | None => None
      | Some (m2, c2, w2, evs2) =>
          Some (mkDevice m2 (wrap32 (c2 - 1)) w2, evs1 ++ evs2)
      end
  end.

(** [Device::stepCPU]: the new state and the returned tick count. *)
Definition stepCPU (fuel : nat) (d : Device B) : option (Device B * Z) :=
  match stepCPU_events fuel d with
  | None => None
  | Some (d', _) => Some (d', 1)
  end.

(** Between two CPU steps the other clock events and the host act on the
    machine; they cannot reach the two stepping counters. *)
Definition disturb (f : Machine B → Machine B) (d : Device B) : Device B :=
  mkDevice (f (machine d)) (instruction_cycles d)
           (interrupt_wait_instruction d).

(** A run of CPU steps, each preceded by an action of the environment.
    The result lists the events step by step. *)
Fixpoint run (fuel : nat) (env : list (Machine B → Machine B)) (d : Device B)
  : option (Device B * list (list CpuEvent)) :=
  match env with
  | [] => Some (d, [])
  | f :: env' =>
      match stepCPU_events fuel (disturb f d) with
      | None => None
      | Some (d1, evs) =>
          match run fuel env' d1 with
          | None => None
          | Some (d2, tr) => Some (d2, evs :: tr)
          end
      end
  end.

(** *** The arbitration rule in the words of the specification

    "NMI first (highest priority; always enabled if pending); else HIGH if
    hilvlen set and current level < HIGH; else MED if medlvlen set and
    current level < MED; else LO if lolvlen set and current level < LO."
    This second definition is what [select_level], the chain of the
    source, is compared with. *)
Definition arbitration_rule (m : Machine B) : option IntLvl :=
  let intlvl := lvl_val (currentIntLvl (pmic_status m)) in
  let p := iv_pending m in
  if negb (queue_empty (iv_nmi p)) then Some INTLVL_NMI
  else if hilvlen (pmic_ctrl m) && negb (queue_empty (iv_hi p))
          && (intlvl <? lvl_val INTLVL_HI)
  then Some INTLVL_HI
  else if medlvlen (pmic_ctrl m) && negb (queue_empty (iv_med p))
          && (intlvl <? lvl_val INTLVL_MED)
  then Some INTLVL_MED
  else if lolvlen (pmic_ctrl m) && negb (queue_empty (iv_lo p))
          && (intlvl <? lvl_val INTLVL_LO)
  then Some INTLVL_LO
  else None.

End Core.

(** A sequence of CPU events in which an acknowledgement is never
    followed by another one before an instruction has been executed;
    [pending] tells whether an acknowledgement is still waiting for its
    instruction when the sequence starts. *)
Fixpoint ack_spaced (pending : bool) (evs : list CpuEvent) : bool :=
  match evs with
  | [] => true
  | EvAck :: evs' => negb pending && ack_spaced true evs'
  | EvExec _ :: evs' => ack_spaced false evs'
  end.

(** ** The heap algorithms of the C++ standard library

    [clk_sys_queue_] is a [std::vector] kept as a binary heap with
    [std::push_heap], [std::pop_heap] and [std::make_heap].  These are the
    algorithms of libstdc++ (bits/stl_heap.h) on a list; indices are
    positions in the list and [comp] is the comparison object. *)

Section StdHeap.

Context {A : Type}.
Variable comp : A → A → bool.

(** [std::__push_heap]: move the hole up while the parent compares less
    than [value], then store [value].  The hole index decreases at each
    turn, so [fuel = holeIndex] turns are enough. *)
Fixpoint push_heap_at (fuel : nat) (l : list A) (holeIndex topIndex : nat)
    (value : A) : list A :=
  match fuel with
  | O => <[holeIndex := value]> l
  | S fuel' =>
      let parent := ((holeIndex - 1) / 2)%nat in
      match l !! parent with
      | Some p =>
          if (topIndex <? holeIndex)%nat && comp p value
          then push_heap_at fuel' (<[holeIndex := p]> l) parent topIndex value
          else <[holeIndex := value]> l
      | None => <[holeIndex := value]> l
      end
  end.

(** The first loop of [std::__adjust_heap]: move the hole down to the
    larger child while it has two children.  ([secondChild] and
    [holeIndex] are equal at the head of every turn.) *)
Fixpoint sift_down (fuel : nat) (l : list A) (holeIndex len : nat)
  : list A * nat :=
  match fuel with
  | O => (l, holeIndex)
  | S fuel' =>
      if (holeIndex <? (len - 1) / 2)%nat then
        let secondChild := (2 * (holeIndex + 1))%nat in
        match l !! secondChild, l !! (secondChild - 1)%nat with
        | Some r, Some lft =>
            if comp r lft
            then sift_down fuel' (<[holeIndex := lft]> l) (secondChild - 1) len
            else sift_down fuel' (<[holeIndex := r]> l) secondChild len
        | _, _ => (l, holeIndex)
        end
      else (l, holeIndex)
  end.

(** The step of [std::__adjust_heap] for a last node with one child. *)
Definition sift_last (l : list A) (holeIndex len : nat) : list A * nat :=
  if Nat.even len && (holeIndex =? (len - 2) / 2)%nat then
    match l !! (2 * (holeIndex + 1) - 1)%nat with
    | Some c => (<[holeIndex := c]> l, (2 * (holeIndex + 1) - 1)%nat)
    | None => (l, holeIndex)
    end
  else (l, holeIndex).

(** [std::__adjust_heap(first, holeIndex, len, value)] on the [len]
    elements of [l]; called with [1 <= len]. *)
Definition adjust_heap (l : list A) (holeIndex : nat) (value : A) : list A :=
  let len := length l in
  let '(l1, hole1) := sift_down len l holeIndex len in
  let '(l2, hole2) := sift_last l1 hole1 len in
  push_heap_at hole2 l2 hole2 holeIndex value.

(** [std::push_heap(first, last)]: the last element is the new one. *)
Definition push_heap (l : list A) : list A :=
  match last l with
  | Some value =>
      push_heap_at (length l - 1) l (length l - 1) 0 value
  | None => l
  end.

(** [std::pop_heap(first, last)]: the first element goes to the last
    position and the others are made a heap again. *)
Definition pop_heap (l : list A) : list A :=
  match l, last l with
  | root :: _ :: _, Some value =>
      adjust_heap (take (length l - 1) l) 0 value ++ [root]
  | _, _ => l
  end.

(** [std::make_heap(first, last)] *)
Fixpoint make_heap_from (parent : nat) (l : list A) : list A :=
  let l' :=
    match l !! parent with
    | Some value => adjust_heap l parent value
    | None => l
    end in
  match parent with
  | O => l'
  | S parent' => make_heap_from parent' l'
  end.

Definition make_heap (l : list A) : list A :=
  if (length l <? 2)%nat then l
  else make_heap_from ((length l - 2) / 2) l.

(** The heap property [std::is_heap]: no parent compares less than a
    child. *)
Definition is_heap (l : list A) : Prop :=
  ∀ i p c, (0 < i)%nat → l !! ((i - 1) / 2)%nat = Some p → l !! i = Some c →
    comp p c = false.

(** *** Invariants of the algorithms *)

(** The heap property everywhere but around the hole [h]. *)
Definition heap_except (h : nat) (l : list A) : Prop :=
  ∀ i p c, (0 < i)%nat → i ≠ h → ((i - 1) / 2)%nat ≠ h →
    l !! ((i - 1) / 2)%nat = Some p → l !! i = Some c → comp p c = false.

(** The parent of the hole does not compare less than a child of the
    hole. *)
Definition hole_bridged (h : nat) (l : list A) : Prop :=
  ∀ c g x, (0 < h)%nat → (0 < c)%nat → ((c - 1) / 2)%nat = h →
    l !! ((h - 1) / 2)%nat = Some g → l !! c = Some x → comp g x = false.

(** [value] does not compare less than a child of the hole. *)
Definition above_children (value : A) (h : nat) (l : list A) : Prop :=
  ∀ c x, (0 < c)%nat → ((c - 1) / 2)%nat = h → l !! c = Some x →
    comp value x = false.

End StdHeap.

(** ** The clock event scheduler (src/device.cpp) *)

Inductive ClockType := SYS | CPU | PER | PER2 | PER4 | ASY.

(** [ClockEvent], as [schedule] initialises it.  [W] is what a callback
    acts on: callbacks must not schedule or unschedule, so the queue is
    not part of it.  [ev_id] stands for the address of the event, which
    [schedule] returns and [unschedule] compares. *)
Record ClockEvent (W : Type) := mkClockEvent {
  ev_id : nat;
  clock : ClockType;
  callback : W → W * Z;
  priority : Z;
  tick : Z;
  scale : Z
}.

Arguments mkClockEvent {W}.
Arguments ev_id {W}.
Arguments clock {W}.
Arguments callback {W}.
Arguments priority {W}.
Arguments tick {W}.
Arguments scale {W}.

(** The scheduler's part of [Device]; [next_id] is the next free address. *)
Record Sched (W : Type) := mkSched {
  clk_sys_tick : Z;
  clk_sys_queue : list (ClockEvent W);
  next_id : nat
}.

Arguments mkSched {W}.
Arguments clk_sys_tick {W}.
Arguments clk_sys_queue {W}.
Arguments next_id {W}.

(** [Device::getClockScale], on the prescaler divisors of the CLK block
    (the [prescaler_a_], [prescaler_b_], [prescaler_c_] of device.cpp).
    The warning for ASY is not recorded. *)
Definition getClockScale (clk : CLK.State) (c : ClockType) : Z :=
  match c with
  | SYS => 1
  | CPU | PER =>
      wrap32 (CLK.prescalerA_div clk * CLK.prescalerB_div clk
              * CLK.prescalerC_div clk)
  | PER2 => wrap32 (CLK.prescalerA_div clk * CLK.prescalerB_div clk)
  | PER4 => CLK.prescalerA_div clk
  | ASY => 1
  end.

Section Scheduler.

Context {W : Type}.

(** Modelled from the spec: [clock_queue_cmp] (clock.h is not among the
    sources).  "Order by tick ascending, then by priority ascending": the
    standard heap keeps the greatest element first, so [a] compares less
    than [b] when [a] is due later, or at the same tick with a larger
    priority number.  An event records no insertion stamp, so the
    comparison cannot refer to one. *)
Definition clock_queue_cmp (a b : ClockEvent W) : bool :=
  (tick b <? tick a) || ((tick a =? tick b) && (priority b <? priority a)).

Definition set_tick (t : Z) (ev : ClockEvent W) : ClockEvent W :=
  mkClockEvent (ev_id ev) (clock ev) (callback ev) (priority ev) t (scale ev).

Definition set_tick_scale (t sc : Z) (ev : ClockEvent W) : ClockEvent W :=
  mkClockEvent (ev_id ev) (clock ev) (callback ev) (priority ev) t sc.

(** [Device::schedule]; [None] is the division by a zero scale. *)
Definition schedule (clk : CLK.State) (c : ClockType) (cb : W → W * Z)
    (ticks prio : Z) (s : Sched W) : option (Sched W * nat) :=
  let sc := getClockScale clk c in
  if sc =? 0 then None
  else
    let ev := mkClockEvent (next_id s) c cb prio
                (wrap32 ((clk_sys_tick s / sc + ticks) * sc)) sc in
    Some (mkSched (clk_sys_tick s)
                  (push_heap clock_queue_cmp (clk_sys_queue s ++ [ev]))
                  (S (next_id s)),
          next_id s).

(** The search loop of [unschedule]: erase the first event at address
    [id]. *)
Fixpoint erase_event (id : nat) (q : list (ClockEvent W))
  : option (list (ClockEvent W)) :=
  match q with
  | [] => None
  | ev :: q' =>
      if (ev_id ev =? id)%nat then Some q'
      else option_map (cons ev) (erase_event id q')
  end.

(** [Device::unschedule] *)
Definition unschedule (id : nat) (s : Sched W) : Sched W * list LogEntry :=
  match erase_event id (clk_sys_queue s) with
  | Some q =>
      (mkSched (clk_sys_tick s) (make_heap clock_queue_cmp q) (next_id s), [])
  | None => (s, [(ERROR, "cannot unschedule event: not found")])
  end.

(** How a call of [step] ends: the loop leaves at [break], or reads the
    front of an empty queue (the assertion at the head of [step], or
    undefined behaviour inside the loop), or the fuel of the model is
    exhausted. *)
Inductive StepStatus := StepDone | StepEmptyQueue | StepOutOfFuel.

(** A callback invocation: which event, due at which tick, with which
    priority. *)
Record Fired := mkFired {
  fired_id : nat;
  fired_tick : Z;
  fired_priority : Z
}.

(** The queue after the callback of the front event returned [next]. *)
Definition requeue (ev : ClockEvent W) (next : Z) (q : list (ClockEvent W))
  : list (ClockEvent W) :=
  if next =? 0 then removelast (pop_heap clock_queue_cmp q)
  else
    let ev' := set_tick (wrap32 (tick ev + next * scale ev)) ev in
    push_heap clock_queue_cmp (pop_heap clock_queue_cmp (<[0%nat := ev']> q)).

(** The loop of [Device::step]. *)
Fixpoint step_loop (fuel : nat) (now : Z) (q : list (ClockEvent W)) (w : W)
  : StepStatus * list (ClockEvent W) * W * list Fired :=
  match fuel with
  | O => (StepOutOfFuel, q, w, [])
  | S fuel' =>
      match q with
      | [] => (StepEmptyQueue, q, w, [])
      | ev :: _ =>
          if now <? tick ev then (StepDone, q, w, [])
          else
            let '(w', next) := callback ev w in
            let '(st, q', w'', fired) :=
              step_loop fuel' now (requeue ev next q) w' in
            (st, q', w'',
             mkFired (ev_id ev) (tick ev) (priority ev) :: fired)
      end
  end.

(** [Device::step] *)
Definition step (fuel : nat) (s : Sched W) (w : W)
  : StepStatus * Sched W * W * list Fired :=
  match clk_sys_queue s with
  | [] => (StepEmptyQueue, s, w, [])
  | ev :: _ =>
      let now := tick ev in
      let '(st, q, w', fired) := step_loop fuel now (clk_sys_queue s) w in
      (st, mkSched now q (next_id s), w', fired)
  end.

(** The body of the loop of [onClockConfigChange] for one event; [None]
    is the failed assertion (or the division by a zero scale). *)
Definition rescale (clk : CLK.State) (now : Z) (ev : ClockEvent W)
  : option (ClockEvent W) :=
  let sc := getClockScale clk (clock ev) in
  if scale ev =? sc then Some ev
  else if scale ev =? 0 then None
  else if negb (wrap32 (tick ev - now) mod scale ev =? 0) then None
  else
    let dt := wrap32 (tick ev - now + scale ev - 1) / scale ev in
    Some (set_tick_scale (wrap32 (now + dt * sc)) sc ev).

(** [Device::onClockConfigChange] *)
Definition onClockConfigChange (clk : CLK.State) (s : Sched W)
  : option (Sched W) :=
  match mapM (rescale clk (clk_sys_tick s)) (clk_sys_queue s) with
  | None => None
  | Some q =>
      Some (mkSched (clk_sys_tick s) (make_heap clock_queue_cmp q) (next_id s))
  end.

(** The scheduler after [clk_sys_tick_ = 0; clk_sys_queue_.clear()]. *)
Definition sched_reset (s : Sched W) : Sched W := mkSched 0 [] (next_id s).

(** The states a sequence of [schedule] and [step] calls reaches after a
    reset; the CLK block and the world of the callbacks are arbitrary at
    each call. *)
Inductive reachable : Sched W → Prop :=
| reach_reset s : reachable (sched_reset s)
| reach_schedule s clk c cb ticks prio s' id :
    reachable s → schedule clk c cb ticks prio s = Some (s', id) →
    reachable s'
| reach_step s fuel w s' w' fired :
    reachable s → step fuel s w = (StepDone, s', w', fired) →
    reachable s'.

(** The events due at the same tick fire in ascending priority order. *)
Definition priority_ordered (fired : list Fired) : Prop :=
  ∀ i j x y, (i < j)%nat → fired !! i = Some x → fired !! j = Some y →
    fired_tick x = fired_tick y → fired_priority x ≤ fired_priority y.

(** Events of the same tick and priority fire in the order in which they
    were scheduled (addresses are handed out in that order). *)
Definition insertion_ordered (fired : list Fired) : Prop :=
  ∀ i j x y, (i < j)%nat → fired !! i = Some x → fired !! j = Some y →
    fired_tick x = fired_tick y → fired_priority x = fired_priority y →
    (fired_id x ≤ fired_id y)%nat.

(** The number of ticks of its clock domain an event is away from firing,
    the time being [now]; tick differences are taken modulo [2^32], as the
    unsigned subtraction of the source takes them. *)
Definition domain_ticks_left (now : Z) (ev : ClockEvent W) : Z :=
  wrap32 (tick ev - now) / scale ev.

(** An event [onClockConfigChange] can re-express in the scale [sc] of its
    clock: either its scale is [sc] already, or it is a whole number [dt]
    of old ticks away and neither the rounding-up nor [dt * sc] leaves the
    range of [unsigned int]. *)
Definition rescalable (clk : CLK.State) (now : Z) (ev : ClockEvent W)
  : Prop :=
  let sc := getClockScale clk (clock ev) in
  let d := wrap32 (tick ev - now) in
  scale ev ≠ sc →
  0 < scale ev ∧ 0 < sc ∧ d mod scale ev = 0
  ∧ d + scale ev ≤ 2 ^ 32 ∧ d / scale ev * sc < 2 ^ 32.

(** [ev'] is [ev] re-expressed in the scale of its clock: the new tick is
    [now + dt * sc] for [dt] the quotient, rounded up, of the distance by
    the old scale, and the event is as many domain ticks away as before. *)
Definition rescaled (clk : CLK.State) (now : Z) (ev ev' : ClockEvent W)
  : Prop :=
  let sc := getClockScale clk (clock ev) in
  let d := wrap32 (tick ev - now) in
  ev_id ev' = ev_id ev ∧ clock ev' = clock ev ∧ priority ev' = priority ev
  ∧ scale ev' = sc
  ∧ (scale ev ≠ sc →
     tick ev' = wrap32 (now + (d + scale ev - 1) / scale ev * sc))
  ∧ (scale ev = sc → tick ev' = tick ev)
  ∧ domain_ticks_left now ev' = domain_ticks_left now ev.

End Scheduler.

(** ** Concrete configurations

    Instances of the parameter records and small device states, on which
    the statements below are evaluated. *)

(** The CLK register layout of the XMEGA data sheet: eight bytes of
    registers, PSADIV in bits 2..6 and PSBCDIV in bits 0..1 of PSCTRL. *)
Definition xmega_clk : CLK.Header :=
  CLK.mkHeader 8 0 4 0 2 5
    (fun v => Z.land (Z.shiftr v 2) 0x1F) (fun v => Z.land v 3).

Definition clk_unlocked : CLK.State := CLK.mkState 0 0 1 1 1 false 0 false.
Definition clk_locked : CLK.State := CLK.mkState 0 0 1 1 1 true 0 false.

(** LOCK written inside the CCP window, then CTRL, PSCTRL and LOCK. *)
Definition clk_writes : list CLK.Write :=
  [(2, 1, 1); (0, 1, 0); (1, 0x0D, 0); (2, 0, 1)].

(** A platform without peripherals: the stack helpers store the low
    byte at the pointer and the higher bytes below it, every I/O read
    returns zero, the interrupt hook does nothing, and the instructions
    left to [exec_other] behave as a one-cycle NOP. *)
Definition demo_stack_set (n : Z) (sram : list Z) (i v : Z) : list Z :=
  let s0 := <[Z.to_nat i := Z.land v 0xFF]> sram in
  let s1 := <[Z.to_nat (i - 1) := Z.land (Z.shiftr v 8) 0xFF]> s0 in
  if n =? 16 then s1
  else <[Z.to_nat (i - 2) := Z.land (Z.shiftr v 16) 0xFF]> s1.

Definition demo_stack_get (n : Z) (sram : list Z) (i : Z) : Z :=
  let b0 := default 0 (sram !! Z.to_nat i) in
  let b1 := default 0 (sram !! Z.to_nat (i - 1)) in
  let b2 := default 0 (sram !! Z.to_nat (i - 2)) in
  if n =? 16 then Z.lor b0 (Z.shiftl b1 8)
  else Z.lor b0 (Z.lor (Z.shiftl b1 8) (Z.shiftl b2 16)).

Definition demo_platform : Platform unit :=
  mkPlatform demo_stack_set demo_stack_get (fun _ _ => 0) (fun _ => 0)
    (fun _ _ m => m) (fun _ _ m => Some (pc_add 1 m, 1)).

(** A device with 64 KiB of flash, a 4 KiB boot section and 16 bytes of
    SRAM; [demo_cfg_large] has 256 KiB of flash. *)
Definition demo_cfg : ModelConf := mkModelConf 0x10000 256 0x1000 0x800 16 false.
Definition demo_cfg_large : ModelConf :=
  mkModelConf 0x40000 256 0x1000 0x800 16 false.

(** A machine that runs [program] from address 0, with registers
    [r0 = 0, r1 = 1, ...], an empty SRAM of 16 bytes and the stack pointer
    at its top. *)
Definition demo_machine (program : list Z) : Machine unit :=
  mkMachine program (map Z.of_nat (seq 0 32)) (replicate 16 0)
    0 0x200F 0 0 0 0 (mkPmicCtrl false false false false)
    iv_pending_empty (replicate 128 (Some 0%nat)) false [] tt.

(** PUSH r3; POP r5. *)
Definition demo_push_pop : Machine unit := demo_machine [0x923F; 0x905F].

(** The FMULSU encoding of the AVR manual, for r16 and r16. *)
Definition demo_fmulsu : Machine unit := demo_machine [0x0388].

(** SBRC r0,0 (bit 0 of r0 is clear) followed by a NOP. *)
Definition demo_sbrc : Machine unit := demo_machine [0xFC00; 0x0000].

(** RETI inside a HI handler that interrupted a LO handler. *)
Definition demo_reti : Machine unit :=
  set_sp 0x200D (set_pmic_status 5 (demo_machine [0x9518])).

(** A device executing NOPs at PC = 0x10 with interrupts enabled, the
    three levels enabled, vector 3 pending at LO and vector 5 at MED. *)
Definition demo_irq_machine : Machine unit :=
  mkMachine (replicate 32 0) (map Z.of_nat (seq 0 32)) (replicate 16 0)
    0x10 0x200F 0x80 0 0 0 (mkPmicCtrl true true true false)
    (mkIvPending {[3]} {[5]} ∅ ∅) (replicate 128 (Some 0%nat)) false [] tt.

Definition demo_irq_device : Device unit := mkDevice demo_irq_machine 0 false.

(** The same device inside an NMI handler, with NMI vector 2 pending. *)
Definition demo_nmi_machine : Machine unit :=
  mkMachine (replicate 32 0) (map Z.of_nat (seq 0 32)) (replicate 16 0)
    0x10 0x200F 0x80 0 0 8 (mkPmicCtrl true true true false)
    (mkIvPending ∅ ∅ ∅ {[2]}) (replicate 128 (Some 0%nat)) false [] tt.

Definition demo_nmi_device : Device unit := mkDevice demo_nmi_machine 0 false.

(** An environment that leaves the machine alone, except that a block
    posts vector 7 at level HI before the seventh CPU step. *)
Definition demo_env : list (Machine unit → Machine unit) :=
  replicate 6 (fun m => m)
  ++ [fun m => set_iv_pending (setIvLvl 7 INTLVL_HI (iv_pending m)) m]
  ++ replicate 3 (fun m => m).

(** A callback that asks to be called again one tick later, and four
    events scheduled with it on the PER clock after a reset, undivided:
    [demo_sched] gives them all priority 7, [demo_sched_mixed] the
    priorities 9, 3, 7 and 3. *)
Definition demo_callback (w : unit) : unit * Z := (w, 1).

Definition demo_schedule (prio : Z) (s : Sched unit) : Sched unit :=
  match schedule clk_unlocked PER demo_callback 1 prio s with
  | Some (s', _) => s'
  | None => s
  end.

Definition demo_sched : Sched unit :=
  demo_schedule 7 (demo_schedule 7 (demo_schedule 7 (demo_schedule 7
    (sched_reset (mkSched 0 [] 0%nat))))).

Definition demo_sched_mixed : Sched unit :=
  demo_schedule 3 (demo_schedule 7 (demo_schedule 3 (demo_schedule 9
    (sched_reset (mkSched 0 [] 0%nat))))).

(** The CLK block after a write of PSCTRL that divides the system clock
    by 8, by 4 and by 2 in prescaler A. *)
Definition clk_div8 : CLK.State :=
  from_option fst clk_unlocked (CLK.setIo xmega_clk 1 0x0C 0 clk_unlocked).
Definition clk_div4 : CLK.State :=
  from_option fst clk_unlocked (CLK.setIo xmega_clk 1 0x08 0 clk_unlocked).
Definition clk_div2 : CLK.State :=
  from_option fst clk_unlocked (CLK.setIo xmega_clk 1 0x04 0 clk_unlocked).

(** At SYS tick 16, an event of the PER clock, scheduled while the clock
    ran at an eighth of SYS, that is two PER ticks away. *)
Definition demo_sched_per : Sched unit :=
  mkSched 16 [mkClockEvent 0 PER demo_callback 7 32 8] 1.

(** After a reset, an event scheduled [2^31] ticks ahead on the
    undivided PER clock. *)
Definition demo_sched_far : Sched unit :=
  from_option fst (mkSched 0 [] 0%nat)
    (schedule clk_unlocked PER demo_callback 0x80000000 7
       (sched_reset (mkSched 0 [] 0%nat))).

(* END OF DEFINITIONS *)

(** * Properties *)

(** ** The CLK lock *)

Section CLK_lock.

Variable h : CLK.Header.

Lemma setIo_locked addr v ccp c c' lg :
  CLK.locked c = true → CLK.setIo h addr v ccp c = Some (c', lg) →
  CLK.locked c' = true ∧ CLK.protected c' = CLK.protected c.
Proof.
  intros Hl. unfold CLK.setIo. rewrite Hl. simpl.
  rewrite !andb_false_r.
  repeat case_match; intros [= <- <-]; auto.
Qed.

Lemma setIo_sets_lock addr v ccp c c' lg :
  CLK.locked c = false → CLK.setIo h addr v ccp c = Some (c', lg) →
  CLK.locked c' = true →
  addr = 2 ∧ v ≠ 0 ∧ Z.land ccp CLK.CCP_IOREG ≠ 0.
Proof.
  intros Hl. unfold CLK.setIo. rewrite Hl. simpl. rewrite !andb_true_r.
  repeat case_match; intros [= <- <-]; simpl; try congruence; intros _.
  repeat split; lia.
Qed.

Lemma setIo_total addr v ccp c :
  addr < CLK.IO_SIZE h → is_Some (CLK.setIo h addr v ccp c).
Proof.
  intros Ha. unfold CLK.setIo.
  destruct (Z.ltb_spec addr (CLK.IO_SIZE h)); [simpl | lia].
  repeat case_match; eauto.
Qed.

(** C10. Once LOCK is set, no sequence of I/O writes changes [sclk],
    [psctrl] or a prescaler divisor, and none clears the flag; the flag
    can only be set by a non-zero write to LOCK (offset 2) made while the
    CCP I/O-register window is active; a block reset clears it. *)
Theorem clk_lock_protects ws c c' :
  CLK.setIo_seq h ws c = Some c' →
  (CLK.locked c = true →
     CLK.locked c' = true ∧ CLK.protected c' = CLK.protected c)
  ∧ (CLK.locked c = false → CLK.locked c' = true →
     ∃ w, w ∈ ws ∧ CLK.write_addr w = 2 ∧ CLK.write_value w ≠ 0
          ∧ Z.land (CLK.write_ccp w) CLK.CCP_IOREG ≠ 0)
  ∧ CLK.locked (CLK.reset h c') = false.
Proof.
  revert c. induction ws as [|w ws IH]; intros c; simpl.
  - intros [= <-]. repeat split; auto. congruence.
  - destruct (CLK.setIo h _ _ _ c) as [[c1 lg]|] eqn:E; [|discriminate].
    intros Hs. destruct (IH _ Hs) as (IH1 & IH2 & IH3).
    split; [|split]; auto.
    + intros Hl. destruct (setIo_locked _ _ _ _ _ _ Hl E) as [Hl1 Hp1].
      destruct (IH1 Hl1) as [? ?]. split; congruence.
    + intros Hl Hl'. destruct (CLK.locked c1) eqn:Hl1.
      * exists w. split; [left|].
        exact (setIo_sets_lock _ _ _ _ _ _ Hl E Hl1).
      * destruct (IH2 eq_refl Hl') as (w' & Hin & ?).
        exists w'. split; [by right | done].
Qed.

End CLK_lock.

Lemma clk_lock_protects_witness :
  CLK.setIo_seq xmega_clk clk_writes clk_unlocked = Some clk_locked
  ∧ ((CLK.locked clk_unlocked = true →
        CLK.locked clk_locked = true
        ∧ CLK.protected clk_locked = CLK.protected clk_unlocked)
     ∧ (CLK.locked clk_unlocked = false → CLK.locked clk_locked = true →
        ∃ w, w ∈ clk_writes ∧ CLK.write_addr w = 2 ∧ CLK.write_value w ≠ 0
             ∧ Z.land (CLK.write_ccp w) CLK.CCP_IOREG ≠ 0)
     ∧ CLK.locked (CLK.reset xmega_clk clk_locked) = false).
Proof.
  split; [reflexivity|].
  apply (clk_lock_protects xmega_clk clk_writes clk_unlocked clk_locked).
  reflexivity.
Defined.


(** ** The pending queues *)

Lemma with_queue_same l p : with_queue l (queue_of l p) p = p.
Proof. by destruct l, p. Qed.

Lemma queue_of_with_queue l l' q p :
  queue_of l' (with_queue l q p) =
  if decide (l' = l ∧ l ≠ INTLVL_NONE) then q else queue_of l' p.
Proof. destruct l, l'; simpl; try case_decide; try done; naive_solver. Qed.

(** Membership after a chain of erasures, when [iv] is pending in at most
    one of the queues the chain visits. *)
Lemma erase_first_elem iv ls p x l :
  (∀ l1 l2, l1 ∈ ls → l2 ∈ ls →
     iv ∈ queue_of l1 p → iv ∈ queue_of l2 p → l1 = l2) →
  x ∈ queue_of l (erase_first iv ls p) ↔
  x ∈ queue_of l p ∧ (x = iv → l ∉ ls).
Proof.
  revert p. induction ls as [|l0 ls IH]; intros p Hone; simpl.
  - split; [intros ?; split; [done | intros _; apply not_elem_of_nil] | tauto].
  - unfold set_erase. case_bool_decide as Hin; simpl.
    + rewrite queue_of_with_queue. case_decide as Hl.
      * destruct Hl as [-> _]. rewrite elem_of_difference, elem_of_singleton.
        split; [intros [? ?]; split; [done | tauto] |].
        intros [? Hn]. split; [done|]. intros ->. apply Hn; [done | left].
      * split; [|tauto]. intros Hx. split; [done|]. intros -> Hl0.
        apply Hl. assert (l = l0) as ->.
        { apply Hone; [done | left | done | done]. }
        split; [done|]. intros ->. by apply not_elem_of_empty in Hin.
    + assert (queue_of l0 p ∖ {[iv]} = queue_of l0 p) as ->
        by (by apply difference_disjoint_L, disjoint_singleton_r).
      rewrite with_queue_same, IH.
      * split; intros [Hx Hn]; (split; [done|]); intros ->.
        -- intros [->|?]%elem_of_cons; [done | by apply Hn].
        -- intros ?. apply Hn; [done | by right].
      * intros l1 l2 ? ?. apply Hone; by right.
Qed.

Lemma insert_then_erase_elem iv L others p x l :
  queues_disjoint p → L ≠ INTLVL_NONE →
  (∀ l', l' ∈ others ↔ l' ≠ L ∧ l' ≠ INTLVL_NONE) →
  x ∈ queue_of l (insert_then_erase iv L others p) ↔
  (x = iv ∧ l = L) ∨ (x ≠ iv ∧ x ∈ queue_of l p).
Proof.
  intros Hd HL Hothers. unfold insert_then_erase, set_insert.
  case_bool_decide as Hfresh; simpl.
  - rewrite erase_first_elem.
    + rewrite queue_of_with_queue. case_decide as Hl.
      * destruct Hl as [-> _]. rewrite elem_of_union, elem_of_singleton.
        rewrite Hothers. destruct (decide (x = iv)); naive_solver.
      * split.
        -- intros [Hx Hn]. right. split; [|done]. intros ->.
           apply Hl. split; [|done].
           destruct (decide (l = L)) as [|Hne]; [done|]. exfalso.
           destruct (decide (l = INTLVL_NONE)) as [->|Hne'].
           ++ by apply not_elem_of_empty in Hx.
           ++ apply Hn; [done|]. by apply Hothers.
        -- intros [[-> ->] | [? ?]]; [naive_solver|]. done.
    + intros l1 l2 [Hl1 _]%Hothers [Hl2 _]%Hothers.
      rewrite !queue_of_with_queue.
      repeat case_decide; try naive_solver.
  - assert ({[iv]} ∪ queue_of L p = queue_of L p) as ->.
    { apply subseteq_union_1_L. by apply singleton_subseteq_l. }
    rewrite with_queue_same. split.
    + intros Hx. destruct (decide (x = iv)) as [->|]; [left|by right].
      split; [done|]. by apply (Hd iv).
    + intros [[-> ->] | [? ?]]; done.
Qed.

(** Membership after one call, on queues that are disjoint. *)
Lemma setIvLvl_elem iv lvl p x l :
  queues_disjoint p →
  x ∈ queue_of l (setIvLvl iv lvl p) ↔
  (x = iv ∧ l = lvl ∧ lvl ≠ INTLVL_NONE) ∨ (x ≠ iv ∧ x ∈ queue_of l p).
Proof.
  intros Hd.
  assert (Hall : ∀ L others,
    L ≠ INTLVL_NONE →
    (∀ l', l' ∈ others ↔ l' ≠ L ∧ l' ≠ INTLVL_NONE) →
    x ∈ queue_of l (insert_then_erase iv L others p) ↔
    (x = iv ∧ l = L ∧ L ≠ INTLVL_NONE) ∨ (x ≠ iv ∧ x ∈ queue_of l p)).
  { intros L others HL Ho. rewrite insert_then_erase_elem by done.
    naive_solver. }
  destruct lvl; unfold setIvLvl.
  - rewrite erase_first_elem by (intros ????; apply Hd). split.
    + intros [Hx Hn]. right. split; [|done]. intros ->.
      destruct l; try (apply Hn; [done|]; rewrite !elem_of_cons; tauto).
      by apply not_elem_of_empty in Hx.
    + intros [(_ & _ & ?) | [? ?]]; done.
  - apply Hall; [done|]. intros l'. rewrite !elem_of_cons, elem_of_nil.
    destruct l'; naive_solver.
  - apply Hall; [done|]. intros l'. rewrite !elem_of_cons, elem_of_nil.
    destruct l'; naive_solver.
  - apply Hall; [done|]. intros l'. rewrite !elem_of_cons, elem_of_nil.
    destruct l'; naive_solver.
  - apply Hall; [done|]. intros l'. rewrite !elem_of_cons, elem_of_nil.
    destruct l'; naive_solver.
Qed.

Lemma setIvLvl_disjoint iv lvl p :
  queues_disjoint p → queues_disjoint (setIvLvl iv lvl p).
Proof.
  intros Hd x l1 l2 H1 H2.
  apply (setIvLvl_elem _ _ _ _ _ Hd) in H1, H2.
  destruct H1 as [(E1 & -> & _) | (Hn1 & H1)],
           H2 as [(E2 & -> & _) | (Hn2 & H2)]; try done.
  by apply (Hd x).
Qed.

Lemma setIvLvl_seq_disjoint calls p :
  queues_disjoint p → queues_disjoint (setIvLvl_seq calls p).
Proof.
  revert p. induction calls as [|c calls IH]; intros p Hd; simpl; [done|].
  apply IH, setIvLvl_disjoint, Hd.
Qed.

(** C5. After any sequence of [setIvLvl] calls on a fresh device no vector
    is pending in two queues; from such a state [setIvLvl(iv, NONE)]
    leaves [iv] in no queue, [setIvLvl(iv, L)] leaves [iv] in the queue
    of [L] and in no other, and neither touches another vector. *)
Theorem setIvLvl_queues (calls : list (Z * IntLvl)) :
  let p := setIvLvl_seq calls iv_pending_empty in
  queues_disjoint p
  ∧ (∀ iv l, iv ∉ queue_of l (setIvLvl iv INTLVL_NONE p))
  ∧ (∀ iv L l, L ≠ INTLVL_NONE →
       iv ∈ queue_of l (setIvLvl iv L p) ↔ l = L)
  ∧ (∀ iv L x l, x ≠ iv →
       x ∈ queue_of l (setIvLvl iv L p) ↔ x ∈ queue_of l p).
Proof.
  intros p.
  assert (Hd : queues_disjoint p).
  { apply setIvLvl_seq_disjoint. intros iv l1 l2 H1.
    destruct l1; simpl in H1; set_solver. }
  split; [done|]. split; [|split].
  - intros iv l Hin. apply (setIvLvl_elem _ _ _ _ _ Hd) in Hin.
    destruct Hin as [(_ & _ & ?) | (? & _)]; done.
  - intros iv L l Hn. rewrite (setIvLvl_elem _ _ _ _ _ Hd). split.
    + intros [(_ & ? & _) | (? & _)]; done.
    + intros ->. by left.
  - intros iv L x l Hne. rewrite (setIvLvl_elem _ _ _ _ _ Hd). split.
    + intros [(? & _) | (_ & ?)]; done.
    + intros ?. by right.
Qed.

(** ** The decoder on sixteen-bit opcodes

    Facts about [decode] are checked on all 65536 flash words by
    computation. *)

Lemma all_bits_spec k f : ∀ prefix,
  all_bits k prefix f = true →
  ∀ op, prefix * 2 ^ Z.of_nat k ≤ op < (prefix + 1) * 2 ^ Z.of_nat k →
  f op = true.
Proof.
  induction k as [|k IH]; intros prefix H op Hop.
  - simpl in *. by replace op with prefix by lia.
  - simpl in H. rewrite Nat2Z.inj_succ, Z.pow_succ_r in Hop by lia.
    destruct (all_bits k (2 * prefix) f) eqn:E; [|discriminate].
    destruct (Z.lt_ge_cases op ((2 * prefix + 1) * 2 ^ Z.of_nat k)).
    + apply (IH _ E). lia.
    + apply (IH _ H). lia.
Qed.

Lemma all_opcodes_spec f :
  all_opcodes f = true → ∀ op, 0 ≤ op < 65536 → f op = true.
Proof.
  intros H op Hop. apply (all_bits_spec 16 f 0 H).
  change (2 ^ Z.of_nat 16) with 65536. lia.
Qed.

Lemma is_mnemonic_eq a b : is_mnemonic a b = true → a = b.
Proof. destruct a, b; simpl; congruence. Qed.

Lemma decode_checks_all : all_opcodes decode_checks = true.
Proof. by vm_compute. Qed.

Lemma decode_checked op : 0 ≤ op < 65536 → decode_checks op = true.
Proof. apply all_opcodes_spec, decode_checks_all. Qed.

Ltac decode_by_check :=
  let H := fresh "H" in
  intros H%decode_checked ?; apply is_mnemonic_eq;
  unfold decode_checks in H; cbv zeta in H; rewrite !andb_true_iff in H;
  repeat match goal with
         | H : _ ∧ _ |- _ => destruct H
         | H : implb (masked ?op ?m ?v) _ = true,
           E : masked ?op ?m ?v = true |- _ =>
             rewrite E in H; exact H
         end.

Lemma decode_FMULS op :
  0 ≤ op < 65536 → masked op 0xFF88 0x0380 = true → decode op = FMULS.
Proof. decode_by_check. Qed.

Lemma decode_FMULSU_pattern op :
  0 ≤ op < 65536 → masked op 0xFF88 0x0388 = true → decode op = UNKNOWN.
Proof. decode_by_check. Qed.

(** The FMULSU branch is dead: no opcode reaches it. *)
Lemma decode_never_FMULSU op : decode op ≠ FMULSU.
Proof.
  unfold decode.
  destruct (masked op 0xFF88 0x0380) eqn:E; repeat case_match; congruence.
Qed.

Lemma decode_SBRx op :
  0 ≤ op < 65536 → masked op 0xFC00 0xFC00 = true → decode op = SBRx.
Proof. decode_by_check. Qed.

Lemma decode_SBIx op :
  0 ≤ op < 65536 → masked op 0xFD00 0x9900 = true → decode op = SBIx.
Proof. decode_by_check. Qed.

Lemma decode_CPSE op :
  0 ≤ op < 65536 → masked op 0xFC00 0x1000 = true → decode op = CPSE.
Proof. decode_by_check. Qed.

Lemma decode_POP op :
  0 ≤ op < 65536 → masked op 0xFE0F 0x900F = true → decode op = POP.
Proof. decode_by_check. Qed.

Lemma decode_PUSH op :
  0 ≤ op < 65536 → masked op 0xFE0F 0x920F = true → decode op = PUSH.
Proof. decode_by_check. Qed.

Lemma decode_RETI : decode 0x9518 = RETI.
Proof. reflexivity. Qed.

(** ** Single instructions *)

Section Instructions.

Context {B : Type}.
Variable P : Platform B.
Variable cfg : ModelConf.

Lemma executeNextInstruction_decoded (m : Machine B) op i :
  flash_at m (pc m) = Some op → decode op = i →
  executeNextInstruction P cfg m =
  match i with
  | NOP | SPM | WDR | SLEEP | DES => exec_stub m
  | SBRx => exec_SBRx op m
  | SBIx => exec_SBIx P op m
  | CPSE => exec_CPSE op m
  | RET => exec_RET P cfg m
  | RETI => exec_RETI P cfg m
  | POP => exec_POP op m
  | PUSH => exec_PUSH op m
  | BREAK => exec_BREAK m
  | UNKNOWN => exec_UNKNOWN m
  | i => exec_other P i op m
  end.
Proof.
  intros Hf <-. unfold executeNextInstruction. rewrite Hf.
  by destruct (decode op).
Qed.

(** C8 (as the code behaves). An opcode of the FMULSU encoding, pattern
    0x0388 under mask 0xFF88, reaches no multiply branch: it is executed
    as an unknown opcode, which logs a critical message, leaves the
    register file and SREG as they are, advances PC by one word and
    reports one cycle. *)
Theorem fmulsu_encoding_is_unknown (m : Machine B) op :
  flash_at m (pc m) = Some op → 0 ≤ op < 65536 →
  masked op 0xFF88 0x0388 = true →
  ∃ m', executeNextInstruction P cfg m = Some (m', 1)
        ∧ regfile m' = regfile m ∧ sreg m' = sreg m
        ∧ pc m' = wrap32 (pc m + 1)
        ∧ log m' = log m ++ [(CRITICAL, "unknown opcode")].
Proof.
  intros Hf Hop Hm.
  rewrite (executeNextInstruction_decoded m op UNKNOWN Hf
             (decode_FMULSU_pattern op Hop Hm)).
  eexists. split; [reflexivity|]. done.
Qed.

(** C2 (as the code behaves). SBRC and SBRS whose condition holds and
    whose next opcode is one word long advance PC by two words and report
    three cycles, not two. *)
Theorem sbrx_skip_one_word (m : Machine B) op op2 Rr :
  flash_at m (pc m) = Some op → 0 ≤ op < 65536 →
  masked op 0xFC00 0xFC00 = true →
  reg_at m (Z.land (Z.shiftr op 4) 0x1F) = Some Rr →
  Z.land (Z.lxor (Z.shiftr Rr (Z.land op 7)) (Z.shiftr op 9)) 1 = 0 →
  flash_at m (wrap32 (pc m + 1)) = Some op2 → opcode_is_32b op2 = false →
  executeNextInstruction P cfg m = Some (pc_add 2 m, 3).
Proof.
  intros Hf Hop Hm Hr Hc Hf2 H32.
  rewrite (executeNextInstruction_decoded m op SBRx Hf
             (decode_SBRx op Hop Hm)).
  unfold exec_SBRx, skip_next. rewrite Hr, Hc, Hf2, H32. done.
Qed.

(** The other skips charge what the claim says: SBIC, SBIS and CPSE over
    a one-word opcode take two cycles, and every skip over a two-word
    opcode advances PC by three words in three cycles. *)
Lemma skip_next_cycles (m : Machine B) short op2 :
  flash_at m (wrap32 (pc m + 1)) = Some op2 →
  skip_next short m =
  if opcode_is_32b op2 then Some (pc_add 3 m, 3)
  else Some (pc_add 2 m, short).
Proof. intros Hf. unfold skip_next. by rewrite Hf. Qed.

Lemma sbix_skip (m : Machine B) op op2 :
  flash_at m (pc m) = Some op → 0 ≤ op < 65536 →
  masked op 0xFD00 0x9900 = true →
  Z.land (Z.lxor (Z.shiftr (getIoMem P (Z.land (Z.shiftr op 3) 0x1F) m)
                           (Z.land op 7)) (Z.shiftr op 9)) 1 = 0 →
  flash_at m (wrap32 (pc m + 1)) = Some op2 →
  executeNextInstruction P cfg m =
  if opcode_is_32b op2 then Some (pc_add 3 m, 3) else Some (pc_add 2 m, 2).
Proof.
  intros Hf Hop Hm Hc Hf2.
  rewrite (executeNextInstruction_decoded m op SBIx Hf
             (decode_SBIx op Hop Hm)).
  unfold exec_SBIx. rewrite Hc. simpl. by apply skip_next_cycles.
Qed.

Lemma cpse_skip (m : Machine B) op op2 v :
  flash_at m (pc m) = Some op → 0 ≤ op < 65536 →
  masked op 0xFC00 0x1000 = true →
  reg_at m (Z.land (Z.shiftr op 4) 0x1F) = Some v →
  reg_at m (Z.lor (Z.land op 0xF) (Z.land (Z.shiftr op 5) 0x10)) = Some v →
  flash_at m (wrap32 (pc m + 1)) = Some op2 →
  executeNextInstruction P cfg m =
  if opcode_is_32b op2 then Some (pc_add 3 m, 3) else Some (pc_add 2 m, 2).
Proof.
  intros Hf Hop Hm Hd Hr Hf2.
  rewrite (executeNextInstruction_decoded m op CPSE Hf
             (decode_CPSE op Hop Hm)).
  unfold exec_CPSE. rewrite Hd, Hr, Z.eqb_refl. by apply skip_next_cycles.
Qed.

Lemma sbrx_skip_two_words (m : Machine B) op op2 Rr :
  flash_at m (pc m) = Some op → 0 ≤ op < 65536 →
  masked op 0xFC00 0xFC00 = true →
  reg_at m (Z.land (Z.shiftr op 4) 0x1F) = Some Rr →
  Z.land (Z.lxor (Z.shiftr Rr (Z.land op 7)) (Z.shiftr op 9)) 1 = 0 →
  flash_at m (wrap32 (pc m + 1)) = Some op2 → opcode_is_32b op2 = true →
  executeNextInstruction P cfg m = Some (pc_add 3 m, 3).
Proof.
  intros Hf Hop Hm Hr Hc Hf2 H32.
  rewrite (executeNextInstruction_decoded m op SBRx Hf
             (decode_SBRx op Hop Hm)).
  unfold exec_SBRx, skip_next. rewrite Hr, Hc, Hf2, H32. done.
Qed.

End Instructions.

(** ** RETI, PUSH and POP *)

Lemma lvl_bit_testbit l i :
  l ≠ INTLVL_NONE → Z.testbit (lvl_bit l) i = (i =? lvl_val l - 1).
Proof.
  intros Hl. unfold lvl_bit. rewrite Z.shiftl_1_l.
  rewrite Z.pow2_bits_eqb by (destruct l; simpl; [done|lia..]).
  apply Z.eqb_sym.
Qed.

Section Stack.

Context {B : Type}.
Variable P : Platform B.
Variable cfg : ModelConf.

(** The chain of RETI finds the level [currentIntLvl] reports. *)
Lemma exec_RETI_level (m : Machine B) :
  exec_RETI P cfg m =
  Some (pop_pc P cfg
          (match currentIntLvl (pmic_status m) with
           | INTLVL_NONE =>
               add_log (CRITICAL, "RETI but no active interruption") m
           | l => clear_ex l m
           end)).
Proof.
  unfold exec_RETI, currentIntLvl, status_ex.
  destruct (Z.eqb_spec (pmic_status m) 0) as [->|_].
  - by rewrite !Z.land_0_l.
  - repeat case_match; done.
Qed.

(** C6. RETI clears the status bit of the level [currentIntLvl] reports,
    the highest one set in the order NMI, HI, MED, LO, and no other bit;
    when none is set it changes no bit and logs a critical message.  It
    pops the return PC: two bytes in two cycles when the flash has at most
    128 KiB, three bytes in three cycles otherwise.  SREG, and so its I
    flag, is left as it is. *)
Theorem reti_clears_highest_level (m : Machine B) :
  flash_at m (pc m) = Some 0x9518 →
  let l := currentIntLvl (pmic_status m) in
  let n := if flash_size cfg <=? 0x20000 then 2 else 3 in
  ∃ m', executeNextInstruction P cfg m = Some (m', n)
    ∧ (l ≠ INTLVL_NONE →
         (∀ i, Z.testbit (pmic_status m') i =
               Z.testbit (pmic_status m) i && negb (i =? lvl_val l - 1))
         ∧ log m' = log m)
    ∧ (l = INTLVL_NONE →
         pmic_status m' = pmic_status m
         ∧ log m' = log m ++ [(CRITICAL, "RETI but no active interruption")])
    ∧ sp m' = wrap16 (sp m + n)
    ∧ pc m' = stack_get P (8 * n) (sram_data m)
                (wrap16 (sp m + n) - MEM_SRAM_START)
    ∧ sreg m' = sreg m ∧ sreg_I m' = sreg_I m
    ∧ regfile m' = regfile m ∧ sram_data m' = sram_data m.
Proof.
  intros Hf l n.
  rewrite (executeNextInstruction_decoded P cfg m _ RETI Hf decode_RETI).
  rewrite exec_RETI_level. fold l.
  unfold pop_pc. subst n.
  destruct (flash_size cfg <=? 0x20000); (eexists; split; [reflexivity|]);
    (destruct l eqn:El; simpl; repeat split; try done; intros i;
     rewrite Z.ldiff_spec, lvl_bit_testbit by done; done).
Qed.

(** C9. PUSH r followed by POP r', with SP inside the SRAM: the value of
    r ends in r' and SP is back at its initial value.  PUSH stores at the
    byte SP addresses and then decrements SP; POP increments SP and then
    reads the byte SP addresses. *)
Theorem push_pop_restores (m : Machine B) push pop v :
  0 ≤ push < 65536 → masked push 0xFE0F 0x920F = true →
  0 ≤ pop < 65536 → masked pop 0xFE0F 0x900F = true →
  flash_at m (pc m) = Some push →
  flash_at m (wrap32 (pc m + 1)) = Some pop →
  length (regfile m) = 32%nat →
  reg_at m (Z.land (Z.shiftr push 4) 0x1F) = Some v →
  MEM_SRAM_START ≤ sp m < MEM_SRAM_START + Z.of_nat (length (sram_data m)) →
  sp m < 2 ^ 16 →
  ∃ m1 m2,
    executeNextInstruction P cfg m = Some (m1, 1)
    ∧ sram_data m1 !! Z.to_nat (sp m - MEM_SRAM_START) = Some v
    ∧ sp m1 = sp m - 1
    ∧ executeNextInstruction P cfg m1 = Some (m2, 1)
    ∧ reg_at m2 (Z.land (Z.shiftr pop 4) 0x1F) = Some v
    ∧ sp m2 = sp m
    ∧ pc m2 = wrap32 (wrap32 (pc m + 1) + 1).
Proof.
  intros Hpush Mpush Hpop Mpop Hf1 Hf2 Hlen Hr Hsp Hsp16.
  unfold MEM_SRAM_START in *.
  assert (Hd : 0 ≤ Z.land (Z.shiftr pop 4) 0x1F < 32).
  { change 0x1F with (Z.ones 5). rewrite Z.land_ones by lia.
    apply Z.mod_pos_bound. lia. }
  rewrite (executeNextInstruction_decoded P cfg m _ PUSH Hf1
             (decode_PUSH _ Hpush Mpush)).
  unfold exec_PUSH. rewrite Hr. unfold stack_write, stack, MEM_SRAM_START.
  rewrite (proj2 (Z.leb_le _ _)) by lia.
  rewrite (proj2 (Z.ltb_lt _ _)) by lia. simpl.
  set (sram1 := <[Z.to_nat (sp m - 8192) := v]> (sram_data m)).
  assert (Hw : wrap16 (sp m - 1) = sp m - 1).
  { unfold wrap16. apply Z.mod_small. lia. }
  set (m1 := pc_add 1 (set_sp (wrap16 (sp m - 1)) (set_sram_data sram1 m))).
  assert (Hf2' : flash_at m1 (pc m1) = Some pop) by exact Hf2.
  exists m1. eexists. split; [reflexivity|].
  split; [apply list_lookup_insert_eq; lia|].
  split; [exact Hw|].
  rewrite (executeNextInstruction_decoded P cfg m1 _ POP Hf2'
             (decode_POP _ Hpop Mpop)).
  unfold exec_POP, stack_read, stack, MEM_SRAM_START. simpl.
  rewrite Hw.
  assert (Hw2 : wrap16 (sp m - 1 + 1) = sp m).
  { unfold wrap16. rewrite Z.mod_small; lia. }
  rewrite Hw2.
  rewrite (proj2 (Z.leb_le _ _)) by lia.
  assert (Hl : sram1 !! Z.to_nat (sp m - 8192) = Some v)
    by (apply list_lookup_insert_eq; lia).
  rewrite Hl. unfold reg_write. simpl. rewrite Hlen.
  destruct Hd as [Hd1 Hd2].
  rewrite (proj2 (Z.leb_le _ _) Hd1).
  rewrite (proj2 (Z.ltb_lt _ _)) by lia. simpl.
  split; [reflexivity|]. simpl.
  split; [|done].
  unfold reg_at. simpl. rewrite (proj2 (Z.leb_le _ _) Hd1).
  apply list_lookup_insert_eq. lia.
Qed.

End Stack.

Lemma fmulsu_encoding_is_unknown_witness :
  ∃ m', executeNextInstruction demo_platform demo_cfg demo_fmulsu
          = Some (m', 1)
        ∧ regfile m' = regfile demo_fmulsu ∧ sreg m' = sreg demo_fmulsu
        ∧ pc m' = wrap32 (pc demo_fmulsu + 1)
        ∧ log m' = log demo_fmulsu ++ [(CRITICAL, "unknown opcode")].
Proof.
  apply (fmulsu_encoding_is_unknown demo_platform demo_cfg demo_fmulsu 0x0388);
    [reflexivity | lia | reflexivity].
Defined.

Lemma sbrx_skip_one_word_witness :
  executeNextInstruction demo_platform demo_cfg demo_sbrc
  = Some (pc_add 2 demo_sbrc, 3).
Proof.
  apply (sbrx_skip_one_word demo_platform demo_cfg demo_sbrc 0xFC00 0 0);
    [reflexivity | lia | reflexivity..].
Defined.

Lemma reti_clears_highest_level_witness :
  ∃ m', executeNextInstruction demo_platform demo_cfg demo_reti
          = Some (m', 2)
    ∧ (INTLVL_HI ≠ INTLVL_NONE →
         (∀ i, Z.testbit (pmic_status m') i =
               Z.testbit (pmic_status demo_reti) i && negb (i =? 3 - 1))
         ∧ log m' = log demo_reti)
    ∧ (INTLVL_HI = INTLVL_NONE →
         pmic_status m' = pmic_status demo_reti
         ∧ log m' = log demo_reti
                    ++ [(CRITICAL, "RETI but no active interruption")])
    ∧ sp m' = wrap16 (sp demo_reti + 2)
    ∧ pc m' = stack_get demo_platform (8 * 2) (sram_data demo_reti)
                (wrap16 (sp demo_reti + 2) - MEM_SRAM_START)
    ∧ sreg m' = sreg demo_reti ∧ sreg_I m' = sreg_I demo_reti
    ∧ regfile m' = regfile demo_reti
    ∧ sram_data m' = sram_data demo_reti.
Proof.
  apply (reti_clears_highest_level demo_platform demo_cfg demo_reti).
  reflexivity.
Defined.

Lemma push_pop_restores_witness :
  ∃ m1 m2,
    executeNextInstruction demo_platform demo_cfg demo_push_pop = Some (m1, 1)
    ∧ sram_data m1 !! Z.to_nat (sp demo_push_pop - MEM_SRAM_START) = Some 3
    ∧ sp m1 = sp demo_push_pop - 1
    ∧ executeNextInstruction demo_platform demo_cfg m1 = Some (m2, 1)
    ∧ reg_at m2 (Z.land (Z.shiftr 0x905F 4) 0x1F) = Some 3
    ∧ sp m2 = sp demo_push_pop
    ∧ pc m2 = wrap32 (wrap32 (pc demo_push_pop + 1) + 1).
Proof.
  apply (push_pop_restores demo_platform demo_cfg demo_push_pop
           0x923F 0x905F 3);
    [lia | reflexivity | lia | reflexivity | reflexivity | reflexivity
    | reflexivity | reflexivity | vm_compute; split; [discriminate | reflexivity]
    | reflexivity].
Defined.

(** ** Interrupt arbitration and dispatch *)

Lemma set_begin_spec (q : gset Z) iv :
  set_begin q = Some iv → iv ∈ q ∧ ∀ x, x ∈ q → iv ≤ x.
Proof.
  unfold set_begin. intros Hh.
  pose proof (merge_sort_Permutation Z.le (elements q)) as Hperm.
  pose proof (StronglySorted_merge_sort Z.le (elements q)) as Hsort.
  destruct (merge_sort Z.le (elements q)) as [|y l]; [discriminate|].
  injection Hh as ->. split.
  - apply elem_of_elements. rewrite <- Hperm. left.
  - intros x Hx. apply elem_of_elements in Hx. rewrite <- Hperm in Hx.
    apply elem_of_cons in Hx as [->|Hx]; [lia|].
    apply StronglySorted_inv in Hsort as [_ Hall].
    rewrite Forall_forall in Hall. by apply Hall.
Qed.

Lemma set_begin_is_Some (q : gset Z) : q ≠ ∅ → is_Some (set_begin q).
Proof.
  intros Hne. unfold set_begin.
  pose proof (merge_sort_Permutation Z.le (elements q)) as Hperm.
  destruct (merge_sort Z.le (elements q)) as [|y l]; [|by eexists].
  exfalso. apply Hne. apply leibniz_equiv, elements_empty_inv.
  by apply Permutation_nil.
Qed.

Section Dispatch.

Context {B : Type}.
Variable P : Platform B.
Variable cfg : ModelConf.

(** Below NMI the chain of the source and the rule of the specification
    choose the same level; inside an NMI handler the chain chooses none. *)
Lemma select_level_rule (m : Machine B) :
  (currentIntLvl (pmic_status m) ≠ INTLVL_NMI →
   select_level m = arbitration_rule m)
  ∧ (currentIntLvl (pmic_status m) = INTLVL_NMI → select_level m = None).
Proof.
  unfold select_level, arbitration_rule.
  split; intros Hl; destruct (currentIntLvl (pmic_status m));
    try done; simpl;
    destruct (queue_empty (iv_nmi (iv_pending m))),
             (queue_empty (iv_hi (iv_pending m))),
             (queue_empty (iv_med (iv_pending m))),
             (queue_empty (iv_lo (iv_pending m))),
             (hilvlen (pmic_ctrl m)), (medlvlen (pmic_ctrl m)),
             (lolvlen (pmic_ctrl m)); done.
Qed.

Lemma select_level_pending (m : Machine B) l :
  select_level m = Some l →
  l ≠ INTLVL_NONE ∧ queue_of l (iv_pending m) ≠ ∅.
Proof.
  unfold select_level, queue_empty.
  repeat (case_match; try discriminate); intros [= <-]; simpl;
    repeat match goal with
           | H : _ && _ = true |- _ => apply andb_true_iff in H as [? ?]
           | H : negb _ = true |- _ => apply negb_true_iff in H
           | H : bool_decide _ = false |- _ => apply bool_decide_eq_false in H
           end; done.
Qed.

Lemma exec_loop_busy fuel (m : Machine B) c w :
  c ≠ 0 → exec_loop P cfg fuel m c w = Some (m, c, w, []).
Proof.
  intros Hc. destruct fuel; simpl;
    by rewrite (proj2 (Z.eqb_neq _ _) Hc).
Qed.

Lemma processPendingInterrupts_hit (m : Machine B) l iv block :
  select_level m = Some l →
  set_begin (queue_of l (iv_pending m)) = Some iv →
  iv_block m iv = Some block →
  processPendingInterrupts P cfg m =
  Some (let m1 := acknowledge l iv m in
        let m2 := block_executeIv P block (iv - block_iv_base P block) m1 in
        set_pc (iv_address cfg iv m1) (push_pc P cfg (pc m2) m2), true).
Proof.
  intros Hsel Hiv Hblock. unfold processPendingInterrupts.
  rewrite Hsel, Hiv.
  change (iv_block (acknowledge l iv m) iv) with (iv_block m iv).
  by rewrite Hblock.
Qed.

Lemma stepCPU_events_hit fuel (d : Device B) m3 :
  instruction_cycles d = 0 → interrupt_wait_instruction d = false →
  sreg_I (machine d) = true → ccpState (machine d) = 0 →
  processPendingInterrupts P cfg (set_breaked false (machine d))
    = Some (m3, true) →
  stepCPU_events P cfg fuel d = Some (mkDevice m3 4 true, [EvAck]).
Proof.
  intros Hc Hw HI Hccp Hp. unfold stepCPU_events, check_interrupts.
  rewrite Hc, Hw, Hp.
  change (sreg_I (set_breaked false (machine d))) with (sreg_I (machine d)).
  change (ccpState (set_breaked false (machine d)))
    with (ccpState (machine d)).
  rewrite HI, Hccp. simpl.
  by rewrite exec_loop_busy.
Qed.

(** C1 (amended). In a CPU step taken with no cycle debt, with
    [interrupt_wait_instruction] false, I set and CCP inactive, the level
    served is the one the specification's rule names, except inside an
    NMI handler, where none is served.  The vector taken is the smallest
    one pending at that level.  When a block owns it, the step removes the
    vector from its queue and from no other, sets the status bit of the
    level, calls the block's executeIv(iv - iv_base), pushes the PC (two
    bytes when the flash has at most 128 KiB, else three) below SP, sets
    PC to 2*iv, plus flash_boot_start when IVSEL is set, executes no
    instruction, and leaves four of the five charged cycles as debt. *)
Theorem interrupt_dispatch fuel (d : Device B) :
  instruction_cycles d = 0 → interrupt_wait_instruction d = false →
  sreg_I (machine d) = true → ccpState (machine d) = 0 →
  let m := set_breaked false (machine d) in
  let p := iv_pending m in
  (currentIntLvl (pmic_status m) ≠ INTLVL_NMI →
     select_level m = arbitration_rule m)
  ∧ (currentIntLvl (pmic_status m) = INTLVL_NMI → select_level m = None)
  ∧ ∀ l, select_level m = Some l →
    ∃ iv, set_begin (queue_of l p) = Some iv
      ∧ iv ∈ queue_of l p ∧ (∀ x, x ∈ queue_of l p → iv ≤ x)
      ∧ ∀ block, iv_block m iv = Some block →
        let m1 := acknowledge l iv m in
        let m2 := block_executeIv P block (iv - block_iv_base P block) m1 in
        let n := if flash_size cfg <=? 0x20000 then 2 else 3 in
        let target :=
          if ivsel (pmic_ctrl m) then wrap32 (2 * iv + flash_boot_start cfg)
          else wrap32 (2 * iv) in
        (∀ l', queue_of l' (iv_pending m1) =
               if decide (l' = l) then queue_of l p ∖ {[iv]}
               else queue_of l' p)
        ∧ pmic_status m1 = Z.lor (pmic_status m) (lvl_bit l)
        ∧ ∃ m3,
            stepCPU_events P cfg fuel d = Some (mkDevice m3 4 true, [EvAck])
            ∧ pc m3 = target
            ∧ sp m3 = wrap16 (sp m2 - n)
            ∧ sram_data m3 =
                stack_set P (8 * n) (sram_data m2) (sp m2 - MEM_SRAM_START)
                          (pc m2)
            ∧ iv_pending m3 = iv_pending m2
            ∧ pmic_status m3 = pmic_status m2.
Proof.
  intros Hc Hw HI Hccp m p.
  destruct (select_level_rule m) as [Hrule Hnmi].
  split; [done|]. split; [done|].
  intros l Hsel.
  destruct (select_level_pending m l Hsel) as [Hl Hne].
  destruct (set_begin_is_Some _ Hne) as [iv Hiv].
  destruct (set_begin_spec _ _ Hiv) as [Hin Hmin].
  exists iv. split; [done|]. split; [done|]. split; [done|].
  intros block Hblock m1 m2 n target.
  split.
  { intros l'. subst m1. unfold acknowledge. simpl.
    rewrite queue_of_with_queue. fold p.
    repeat case_decide; naive_solver. }
  split; [done|].
  eexists. split.
  { apply stepCPU_events_hit; try done.
    by apply processPendingInterrupts_hit. }
  unfold push_pc, iv_address. subst n target. cbv zeta.
  change (pmic_ctrl (acknowledge l iv m)) with (pmic_ctrl m).
  destruct (flash_size cfg <=? 0x20000); done.
Qed.

(** When the chain chooses no level, nothing is acknowledged and the
    machine is left as it is. *)
Lemma no_dispatch (m : Machine B) :
  select_level m = None → processPendingInterrupts P cfg m = Some (m, false).
Proof. intros H. unfold processPendingInterrupts. by rewrite H. Qed.

End Dispatch.

Lemma interrupt_dispatch_witness :
  ∃ m3,
    stepCPU_events demo_platform demo_cfg 1 demo_irq_device
      = Some (mkDevice m3 4 true, [EvAck])
    ∧ pc m3 = 10 ∧ sp m3 = 0x200D ∧ pmic_status m3 = 2
    ∧ iv_pending m3 = mkIvPending {[3]} (({[5]} : gset Z) ∖ {[5]}) ∅ ∅.
Proof.
  destruct (interrupt_dispatch demo_platform demo_cfg 1 demo_irq_device
              eq_refl eq_refl eq_refl eq_refl) as (_ & _ & H).
  destruct (H INTLVL_MED eq_refl) as (iv & Hiv & _ & _ & Hblock).
  vm_compute in Hiv. injection Hiv as <-.
  destruct (Hblock 0%nat eq_refl)
    as (_ & _ & m3 & Hstep & Hpc & Hsp & _ & Hpend & Hstat).
  exists m3. split; [exact Hstep|].
  split; [exact Hpc|]. split; [exact Hsp|]. split; [exact Hstat|].
  exact Hpend.
Defined.

(** C1 as stated fails inside an NMI handler: an NMI vector is pending,
    the rule of the specification names NMI, and the step serves no
    interrupt and executes the next instruction. *)
Lemma nmi_pending_inside_nmi_not_served :
  instruction_cycles demo_nmi_device = 0
  ∧ interrupt_wait_instruction demo_nmi_device = false
  ∧ sreg_I (machine demo_nmi_device) = true
  ∧ ccpState (machine demo_nmi_device) = 0
  ∧ 2 ∈ iv_nmi (iv_pending (machine demo_nmi_device))
  ∧ arbitration_rule (machine demo_nmi_device) = Some INTLVL_NMI
  ∧ select_level (machine demo_nmi_device) = None
  ∧ snd <$> stepCPU_events demo_platform demo_cfg 1 demo_nmi_device
    = Some [EvExec 1]
  ∧ (iv_pending ∘ machine ∘ fst)
      <$> stepCPU_events demo_platform demo_cfg 1 demo_nmi_device
    = Some (iv_pending (machine demo_nmi_device)).
Proof.
  repeat split; first [reflexivity | by apply elem_of_singleton].
Qed.

(** ** Interrupts and instruction boundaries *)

Lemma ack_spaced_first l1 l3 :
  ack_spaced true (l1 ++ EvAck :: l3) = true → ∃ c, EvExec c ∈ l1.
Proof.
  destruct l1 as [|[|c] l1]; simpl; try discriminate.
  intros _. exists c. left.
Qed.

Lemma ack_spaced_between p l1 l2 l3 :
  ack_spaced p (l1 ++ EvAck :: l2 ++ EvAck :: l3) = true →
  ∃ c, EvExec c ∈ l2.
Proof.
  revert p. induction l1 as [|[|c] l1 IH]; intros p; simpl.
  - intros [_ H]%andb_true_iff. by apply ack_spaced_first in H.
  - intros [_ H]%andb_true_iff. by apply IH in H.
  - apply IH.
Qed.

Lemma ack_spaced_execs p cs rest :
  cs ≠ [] → ack_spaced p ((EvExec <$> cs) ++ rest) = ack_spaced false rest.
Proof.
  intros Hne. revert p. induction cs as [|c cs IH]; intros p; [done|].
  simpl. destruct cs as [|c' cs]; [done|]. by apply IH.
Qed.

Section Steps.

Context {B : Type}.
Variable P : Platform B.
Variable cfg : ModelConf.

Lemma exec_loop_shape fuel : ∀ (m : Machine B) c w m' c' w' evs,
  exec_loop P cfg fuel m c w = Some (m', c', w', evs) →
  c' ≠ 0
  ∧ (c ≠ 0 → evs = [] ∧ c' = c ∧ w' = w)
  ∧ (c = 0 → ∃ cs, evs = EvExec <$> cs ∧ last cs = Some c' ∧ w' = false).
Proof.
  induction fuel as [|fuel IH]; intros m c w m' c' w' evs; simpl.
  - destruct (Z.eqb_spec c 0); [discriminate|].
    intros [= <- <- <- <-]. repeat split; done.
  - destruct (Z.eqb_spec c 0) as [->|Hc].
    + destruct (executeNextInstruction P cfg m) as [[m1 c1]|]; [|discriminate].
      destruct (exec_loop P cfg fuel m1 c1 false)
        as [[[[m2 c2] w2] evs2]|] eqn:E; [|discriminate].
      intros [= <- <- <- <-].
      destruct (IH _ _ _ _ _ _ _ E) as (Hc2 & Hbusy & Hrun).
      split; [done|]. split; [done|]. intros _.
      destruct (decide (c1 = 0)) as [Hz|Hnz].
      * destruct (Hrun Hz) as (cs & -> & Hlast & ->).
        exists (c1 :: cs). split; [done|]. split; [|done].
        destruct cs; [done|]. done.
      * destruct (Hbusy Hnz) as (-> & -> & ->). by exists [c1].
    + intros [= <- <- <- <-]. repeat split; done.
Qed.

(** What one CPU step does, from the debt and the wait flag it starts
    with: with debt it is idle; without debt it either acknowledges an
    interrupt, which needs the flag to be clear and sets it, or executes
    instructions until one reports a cycle count, which clears the flag. *)
Lemma stepCPU_events_shape fuel (d d' : Device B) evs :
  stepCPU_events P cfg fuel d = Some (d', evs) →
  (instruction_cycles d ≠ 0 →
     evs = []
     ∧ instruction_cycles d' = wrap32 (instruction_cycles d - 1)
     ∧ interrupt_wait_instruction d' = interrupt_wait_instruction d)
  ∧ (instruction_cycles d = 0 →
     (evs = [EvAck] ∧ interrupt_wait_instruction d = false
      ∧ instruction_cycles d' = 4 ∧ interrupt_wait_instruction d' = true)
     ∨ (∃ cs c, evs = EvExec <$> cs ∧ last cs = Some c ∧ c ≠ 0
          ∧ instruction_cycles d' = wrap32 (c - 1)
          ∧ interrupt_wait_instruction d' = false)).
Proof.
  unfold stepCPU_events, check_interrupts.
  destruct (Z.eqb_spec (instruction_cycles d) 0) as [Hz|Hnz]; simpl.
  - destruct (interrupt_wait_instruction d) eqn:Hw; simpl.
    + destruct (exec_loop _ _ _ _ _ _) as [[[[m2 c2] w2] evs2]|] eqn:E;
        [|discriminate].
      intros [= <- <-]. split; [done|]. intros _. right.
      destruct (exec_loop_shape _ _ _ _ _ _ _ _ E) as (Hc2 & _ & Hrun).
      destruct (Hrun Hz) as (cs & -> & Hlast & ->). by exists cs, c2.
    + destruct (sreg_I _ && _).
      * destruct (processPendingInterrupts _ _ _) as [[m1 [|]]|];
          [| |discriminate].
        -- rewrite exec_loop_busy by done. intros [= <- <-].
           split; [done|]. intros _. by left.
        -- destruct (exec_loop _ _ _ _ _ _) as [[[[m2 c2] w2] evs2]|] eqn:E;
             [|discriminate].
           intros [= <- <-]. split; [done|]. intros _. right.
           destruct (exec_loop_shape _ _ _ _ _ _ _ _ E) as (Hc2 & _ & Hrun).
           destruct (Hrun Hz) as (cs & -> & Hlast & ->). by exists cs, c2.
      * destruct (exec_loop _ _ _ _ _ _) as [[[[m2 c2] w2] evs2]|] eqn:E;
          [|discriminate].
        intros [= <- <-]. split; [done|]. intros _. right.
        destruct (exec_loop_shape _ _ _ _ _ _ _ _ E) as (Hc2 & _ & Hrun).
        destruct (Hrun Hz) as (cs & -> & Hlast & ->). by exists cs, c2.
  - rewrite exec_loop_busy by done. intros [= <- <-].
    split; [done|]. intros ?. done.
Qed.

Lemma run_ack_spaced fuel : ∀ env (d d' : Device B) tr pending,
  run P cfg fuel env d = Some (d', tr) →
  (pending = true → interrupt_wait_instruction d = true) →
  ack_spaced pending (concat tr) = true.
Proof.
  induction env as [|f env IH]; intros d d' tr pending; simpl.
  - by intros [= <- <-] _.
  - destruct (stepCPU_events _ _ _ _) as [[d1 evs]|] eqn:E; [|discriminate].
    destruct (run _ _ _ _ d1) as [[d2 tr']|] eqn:R; [|discriminate].
    intros [= <- <-] Hp. simpl.
    destruct (stepCPU_events_shape _ _ _ _ E) as [Hbusy Hfree].
    destruct (decide (instruction_cycles (disturb f d) = 0)) as [Hz|Hnz].
    + destruct (Hfree Hz) as [(-> & Hw & _ & Hw')
                             | (cs & c & -> & Hlast & _ & _ & Hw')].
      * simpl in *. destruct pending; [by rewrite Hp in Hw|]. simpl.
        by apply (IH _ _ _ _ R).
      * rewrite ack_spaced_execs by (by destruct cs).
        by apply (IH _ _ _ _ R).
    + destruct (Hbusy Hnz) as (-> & _ & Hw'). simpl.
      apply (IH _ _ _ _ R). intros ?. rewrite Hw'. by apply Hp.
Qed.

(** While the debt lasts the steps are idle. *)
Lemma run_idle fuel : ∀ env (d d' : Device B) tr k evs,
  run P cfg fuel env d = Some (d', tr) →
  Z.of_nat k < instruction_cycles d ≤ 2 ^ 32 →
  tr !! k = Some evs → evs = [].
Proof.
  induction env as [|f env IH]; intros d d' tr k evs; simpl.
  - by intros [= <- <-] _.
  - destruct (stepCPU_events _ _ _ _) as [[d1 evs1]|] eqn:E; [|discriminate].
    destruct (run _ _ _ _ d1) as [[d2 tr']|] eqn:R; [|discriminate].
    intros [= <- <-] Hk.
    destruct (stepCPU_events_shape _ _ _ _ E) as [Hbusy _].
    simpl in Hbusy. destruct Hbusy as (-> & Hc & _); [lia|].
    destruct k as [|k]; simpl; [by intros [= <-]|].
    apply (IH _ _ _ _ _ R). rewrite Hc. unfold wrap32.
    rewrite Z.mod_small; lia.
Qed.

(** The step that produced the entry [i] of a trace, and the run after
    it. *)
Lemma run_split fuel : ∀ env (d d' : Device B) tr i evs,
  run P cfg fuel env d = Some (d', tr) → tr !! i = Some evs →
  ∃ di di' env' tr',
    stepCPU_events P cfg fuel di = Some (di', evs)
    ∧ run P cfg fuel env' di' = Some (d', tr')
    ∧ ∀ k, tr !! (i + S k)%nat = tr' !! k.
Proof.
  induction env as [|f env IH]; intros d d' tr i evs; simpl.
  - by intros [= <- <-].
  - destruct (stepCPU_events _ _ _ _) as [[d1 evs1]|] eqn:E; [|discriminate].
    destruct (run _ _ _ _ d1) as [[d2 tr']|] eqn:R; [|discriminate].
    intros [= <- <-]. destruct i as [|i]; simpl.
    + intros [= <-]. by exists (disturb f d), d1, env, tr'.
    + intros Hi. destruct (IH _ _ _ _ _ R Hi) as (di & di' & env' & tr'' & ?).
      by exists di, di', env', tr''.
Qed.

(** C7. In every run of CPU steps, whatever the other events do to the
    machine in between: between two acknowledgements an instruction is
    executed, and after a reset-like start with the wait flag set an
    instruction is executed before the first acknowledgement; a step that
    acknowledges executes nothing and the four steps after it are idle;
    and while an instruction that reported [c] cycles is in flight, the
    next [c-1] steps are idle, so nothing is acknowledged before it
    retires. *)
Theorem interrupts_wait_for_an_instruction fuel env (d d' : Device B) tr :
  run P cfg fuel env d = Some (d', tr) →
  (∀ l1 l2 l3, concat tr = l1 ++ EvAck :: l2 ++ EvAck :: l3 →
     ∃ c, EvExec c ∈ l2)
  ∧ (interrupt_wait_instruction d = true →
     ∀ l1 l3, concat tr = l1 ++ EvAck :: l3 → ∃ c, EvExec c ∈ l1)
  ∧ (∀ i evs, tr !! i = Some evs → EvAck ∈ evs →
     evs = [EvAck]
     ∧ ∀ k evs', (0 < k < 5)%nat → tr !! (i + k)%nat = Some evs' → evs' = [])
  ∧ (∀ i evs c, tr !! i = Some evs → last evs = Some (EvExec c) →
     c < 2 ^ 32 →
     ∀ k evs', (0 < k)%nat → Z.of_nat k < c →
       tr !! (i + k)%nat = Some evs' → evs' = []).
Proof.
  intros Hrun. split; [|split; [|split]].
  - intros l1 l2 l3 Hcat.
    apply (ack_spaced_between false l1 l2 l3). rewrite <- Hcat.
    by apply (run_ack_spaced _ _ _ _ _ _ Hrun).
  - intros Hw l1 l3 Hcat.
    apply (ack_spaced_first l1 l3). rewrite <- Hcat.
    by apply (run_ack_spaced _ _ _ _ _ _ Hrun).
  - intros i evs Hi Hack.
    destruct (run_split _ _ _ _ _ _ _ Hrun Hi)
      as (di & di' & env' & tr' & Hstep & Hrest & Htr).
    destruct (stepCPU_events_shape _ _ _ _ Hstep) as [Hbusy Hfree].
    destruct (decide (instruction_cycles di = 0)) as [Hz|Hnz].
    + destruct (Hfree Hz) as [(-> & _ & Hc & _)
                             | (cs & c & -> & _)].
      * split; [done|]. intros k evs' Hk.
        destruct k as [|k]; [lia|]. rewrite Htr.
        apply (run_idle _ _ _ _ _ _ _ Hrest). rewrite Hc. lia.
      * apply list_elem_of_fmap in Hack as (? & ? & _). done.
    + destruct (Hbusy Hnz) as (-> & _). by apply elem_of_nil in Hack.
  - intros i evs c Hi Hlast Hc32 k evs' Hk Hkc.
    destruct (run_split _ _ _ _ _ _ _ Hrun Hi)
      as (di & di' & env' & tr' & Hstep & Hrest & Htr).
    destruct (stepCPU_events_shape _ _ _ _ Hstep) as [Hbusy Hfree].
    destruct (decide (instruction_cycles di = 0)) as [Hz|Hnz].
    + destruct (Hfree Hz) as [(-> & _) | (cs & c' & -> & Hl & _ & Hc' & _)].
      * done.
      * rewrite fmap_last, Hl in Hlast. injection Hlast as ->.
        destruct k as [|k]; [lia|]. rewrite Htr.
        apply (run_idle _ _ _ _ _ _ _ Hrest). rewrite Hc'. unfold wrap32.
        rewrite Z.mod_small; lia.
    + destruct (Hbusy Hnz) as (-> & _). done.
Qed.

End Steps.

Lemma interrupts_wait_for_an_instruction_witness :
  ∃ d' tr,
    run demo_platform demo_cfg 1 demo_env demo_irq_device = Some (d', tr)
    ∧ tr = [[EvAck]; []; []; []; []; [EvExec 1]; [EvAck]; []; []; []]
    ∧ (∀ l1 l2 l3, concat tr = l1 ++ EvAck :: l2 ++ EvAck :: l3 →
         ∃ c, EvExec c ∈ l2)
    ∧ (interrupt_wait_instruction demo_irq_device = true →
       ∀ l1 l3, concat tr = l1 ++ EvAck :: l3 → ∃ c, EvExec c ∈ l1)
    ∧ (∀ i evs, tr !! i = Some evs → EvAck ∈ evs →
       evs = [EvAck]
       ∧ ∀ k evs', (0 < k < 5)%nat → tr !! (i + k)%nat = Some evs' →
           evs' = [])
    ∧ (∀ i evs c, tr !! i = Some evs → last evs = Some (EvExec c) →
       c < 2 ^ 32 →
       ∀ k evs', (0 < k)%nat → Z.of_nat k < c →
         tr !! (i + k)%nat = Some evs' → evs' = []).
Proof.
  eexists _, _. split; [vm_compute; reflexivity|]. split; [reflexivity|].
  eapply (interrupts_wait_for_an_instruction demo_platform demo_cfg 1
            demo_env demo_irq_device).
  vm_compute. reflexivity.
Defined.

(** ** The heap algorithms

    [comp] is any comparison that is asymmetric and whose negation is
    transitive, as the standard requires of a strict weak ordering. *)

Ltac Zify.zify_post_hook ::= Z.to_euclidean_division_equations.

Section HeapFacts.
Context {A : Type}.
Variable comp : A → A → bool.
Hypothesis comp_asym : ∀ a b, comp a b = true → comp b a = false.
Hypothesis comp_trans :
  ∀ a b c, comp a b = false → comp b c = false → comp a c = false.

Lemma comp_irrefl a : comp a a = false.
Proof.
  destruct (comp a a) eqn:E; [|done].
  pose proof (comp_asym _ _ E). congruence.
Qed.

Lemma insert_swap_perm (l : list A) i j x v :
  i ≠ j → (i < length l)%nat → l !! j = Some x →
  <[j := v]> (<[i := x]> l) ≡ₚ <[i := v]> l.
Proof.
  intros Hij Hi Hj.
  rewrite <- (list_insert_insert_eq l i x v).
  apply Permutation_insert_swap.
  - by apply list_lookup_insert_eq.
  - by rewrite list_lookup_insert_ne.
Qed.

(** *** Permutations *)

Lemma push_heap_at_perm fuel : ∀ (l : list A) h top value,
  (h < length l)%nat →
  push_heap_at comp fuel l h top value ≡ₚ <[h := value]> l.
Proof.
  induction fuel as [|fuel IH]; intros l h top value Hh; cbn [push_heap_at]; [reflexivity|].
  destruct (l !! ((h - 1) / 2)%nat) as [p|] eqn:Hp; [|reflexivity].
  destruct ((top <? h)%nat && comp p value) eqn:Hc; [|reflexivity].
  apply andb_true_iff in Hc as [Hlt%Nat.ltb_lt _].
  rewrite IH by (rewrite length_insert; lia).
  apply insert_swap_perm; [lia | done | done].
Qed.

Lemma sift_down_perm fuel : ∀ (l : list A) h l1 h1 v,
  sift_down comp fuel l h (length l) = (l1, h1) → (h < length l)%nat →
  <[h1 := v]> l1 ≡ₚ <[h := v]> l
  ∧ (h1 < length l1)%nat ∧ length l1 = length l.
Proof.
  induction fuel as [|fuel IH]; intros l h l1 h1 v; cbn [sift_down].
  - by intros [= <- <-].
  - destruct (Nat.ltb_spec h ((length l - 1) / 2)) as [Hlt|_];
      [|by intros [= <- <-]].
    destruct (l !! (2 * (h + 1))%nat) as [r|] eqn:Hr;
      [|by intros [= <- <-]].
    destruct (l !! (2 * (h + 1) - 1)%nat) as [lft|] eqn:Hl;
      [|by intros [= <- <-]].
    destruct (comp r lft); intros Hs Hh.
    + rewrite <- (length_insert l h lft) in Hs.
      destruct (IH _ _ _ _ v Hs) as (Hp & ? & Hlen).
      { rewrite length_insert. by eapply lookup_lt_Some. }
      rewrite length_insert in Hlen. split; [|done].
      rewrite Hp. apply insert_swap_perm; [lia | done | done].
    + rewrite <- (length_insert l h r) in Hs.
      destruct (IH _ _ _ _ v Hs) as (Hp & ? & Hlen).
      { rewrite length_insert. by eapply lookup_lt_Some. }
      rewrite length_insert in Hlen. split; [|done].
      rewrite Hp. apply insert_swap_perm; [lia | done | done].
Qed.

Lemma sift_last_perm (l : list A) h l1 h1 v :
  sift_last l h (length l) = (l1, h1) → (h < length l)%nat →
  <[h1 := v]> l1 ≡ₚ <[h := v]> l
  ∧ (h1 < length l1)%nat ∧ length l1 = length l.
Proof.
  unfold sift_last.
  destruct (Nat.even (length l) && (h =? (length l - 2) / 2)%nat);
    [|by intros [= <- <-]].
  destruct (l !! (2 * (h + 1) - 1)%nat) as [c|] eqn:Hc;
    [|by intros [= <- <-]].
  intros [= <- <-] Hh. rewrite length_insert.
  split; [|split; [by eapply lookup_lt_Some | done]].
  apply insert_swap_perm; [lia | done | done].
Qed.

Lemma adjust_heap_perm (l : list A) h value :
  (h < length l)%nat → adjust_heap comp l h value ≡ₚ <[h := value]> l.
Proof.
  intros Hh. unfold adjust_heap.
  destruct (sift_down comp (length l) l h (length l)) as [l1 h1] eqn:E1.
  destruct (sift_down_perm _ _ _ _ _ value E1 Hh) as (Hp1 & Hh1 & Hlen1).
  rewrite <- Hlen1.
  destruct (sift_last l1 h1 (length l1)) as [l2 h2] eqn:E2.
  destruct (sift_last_perm _ _ _ _ value E2 Hh1) as (Hp2 & Hh2 & Hlen2).
  rewrite push_heap_at_perm by done. by rewrite Hp2.
Qed.

(** *** The heap property *)

Lemma place_heap (l : list A) h value :
  (h < length l)%nat → heap_except comp h l →
  ((0 < h)%nat → ∀ p, l !! ((h - 1) / 2)%nat = Some p → comp p value = false) →
  above_children comp value h l →
  is_heap comp (<[h := value]> l).
Proof.
  intros Hh He Hp Hc i p c Hi Hpi Hci.
  destruct (decide (i = h)) as [->|Hih].
  - rewrite list_lookup_insert_eq in Hci by done. injection Hci as <-.
    rewrite list_lookup_insert_ne in Hpi by lia. by apply Hp.
  - rewrite list_lookup_insert_ne in Hci by done.
    destruct (decide (((i - 1) / 2)%nat = h)) as [E|E].
    + rewrite E, list_lookup_insert_eq in Hpi by done. injection Hpi as <-.
      by apply (Hc i).
    + rewrite list_lookup_insert_ne in Hpi by done. by apply (He i).
Qed.

Lemma up_heap_except (l : list A) h p :
  (0 < h)%nat → (h < length l)%nat → l !! ((h - 1) / 2)%nat = Some p →
  heap_except comp h l → hole_bridged comp h l →
  heap_except comp ((h - 1) / 2)%nat (<[h := p]> l).
Proof.
  intros H0 Hh Hp He Hb i q c Hi Hip Hpp Hq Hc.
  assert (i ≠ h) by (intros ->; done).
  rewrite list_lookup_insert_ne in Hc by done.
  destruct (decide (((i - 1) / 2)%nat = h)) as [E|E].
  - rewrite E, list_lookup_insert_eq in Hq by done. injection Hq as <-.
    by apply (Hb i p c).
  - rewrite list_lookup_insert_ne in Hq by done. by apply (He i).
Qed.

Lemma up_hole_bridged (l : list A) h p :
  (0 < h)%nat → (h < length l)%nat → l !! ((h - 1) / 2)%nat = Some p →
  heap_except comp h l →
  hole_bridged comp ((h - 1) / 2)%nat (<[h := p]> l).
Proof.
  intros H0 Hh Hp He c g x Hpar0 Hc0 Hcpar Hg Hx.
  rewrite list_lookup_insert_ne in Hg by lia.
  assert (Hgp : comp g p = false).
  { apply (He ((h - 1) / 2)%nat); [done | lia | lia | done | done]. }
  destruct (decide (c = h)) as [->|Hch].
  - rewrite list_lookup_insert_eq in Hx by done. by injection Hx as <-.
  - rewrite list_lookup_insert_ne in Hx by done.
    apply (comp_trans _ p); [done|].
    apply (He c); [done | done | lia | by rewrite Hcpar | done].
Qed.

Lemma up_above_children (l : list A) h p value :
  (0 < h)%nat → (h < length l)%nat → l !! ((h - 1) / 2)%nat = Some p →
  comp p value = true → heap_except comp h l →
  above_children comp value ((h - 1) / 2)%nat (<[h := p]> l).
Proof.
  intros H0 Hh Hp Hpv He c x Hc0 Hcpar Hx.
  assert (Hvp : comp value p = false) by by apply comp_asym.
  destruct (decide (c = h)) as [->|Hch].
  - rewrite list_lookup_insert_eq in Hx by done. by injection Hx as <-.
  - rewrite list_lookup_insert_ne in Hx by done.
    apply (comp_trans _ p); [done|].
    apply (He c); [done | done | lia | by rewrite Hcpar | done].
Qed.

Lemma push_heap_at_heap fuel : ∀ (l : list A) h value,
  (h ≤ fuel)%nat → (h < length l)%nat →
  heap_except comp h l → hole_bridged comp h l →
  above_children comp value h l →
  is_heap comp (push_heap_at comp fuel l h 0 value).
Proof.
  induction fuel as [|fuel IH]; intros l h value Hf Hh He Hb Hc;
    cbn [push_heap_at].
  - apply place_heap; [done | done | lia | done].
  - destruct (l !! ((h - 1) / 2)%nat) as [p|] eqn:Hp.
    + destruct ((0 <? h)%nat && comp p value) eqn:Hcond.
      * apply andb_true_iff in Hcond as [H0%Nat.ltb_lt Hpv].
        apply IH.
        -- lia.
        -- rewrite length_insert. lia.
        -- by apply up_heap_except.
        -- by apply up_hole_bridged.
        -- by apply up_above_children.
      * apply place_heap; [done | done | | done].
        intros H0 p' Hp'. rewrite Hp in Hp'. injection Hp' as <-.
        apply andb_false_iff in Hcond as [Hn|Hn]; [|done].
        apply Nat.ltb_ge in Hn. lia.
    + apply place_heap; [done | done | | done].
      intros _ p' Hp'. by rewrite Hp in Hp'.
Qed.

Lemma down_heap_except (l : list A) h c x :
  (0 < c)%nat → ((c - 1) / 2)%nat = h → l !! c = Some x →
  (h < length l)%nat →
  (∀ s y, (0 < s)%nat → ((s - 1) / 2)%nat = h → l !! s = Some y →
     comp x y = false) →
  heap_except comp h l → hole_bridged comp h l →
  heap_except comp c (<[h := x]> l).
Proof.
  intros Hc0 Hcpar Hx Hh Hdom He Hb i q d Hi Hic Hpic Hq Hd.
  destruct (decide (i = h)) as [->|Hih].
  - rewrite list_lookup_insert_eq in Hd by done. injection Hd as <-.
    rewrite list_lookup_insert_ne in Hq by lia.
    by apply (Hb c q x).
  - rewrite list_lookup_insert_ne in Hd by done.
    destruct (decide (((i - 1) / 2)%nat = h)) as [E|E].
    + rewrite E, list_lookup_insert_eq in Hq by done. injection Hq as <-.
      by apply (Hdom i).
    + rewrite list_lookup_insert_ne in Hq by done. by apply (He i).
Qed.

Lemma down_hole_bridged (l : list A) h c x :
  (0 < c)%nat → ((c - 1) / 2)%nat = h → l !! c = Some x →
  (h < length l)%nat → heap_except comp h l →
  hole_bridged comp c (<[h := x]> l).
Proof.
  intros Hc0 Hcpar Hx Hh He g gv y _ Hg0 Hgpar Hgv Hy.
  rewrite Hcpar, list_lookup_insert_eq in Hgv by done. injection Hgv as <-.
  rewrite list_lookup_insert_ne in Hy by lia.
  apply (He g); [done | lia | lia | by rewrite Hgpar | done].
Qed.

Lemma sift_down_inv fuel : ∀ (l : list A) h l1 h1,
  sift_down comp fuel l h (length l) = (l1, h1) →
  (h < length l)%nat → heap_except comp h l → hole_bridged comp h l →
  heap_except comp h1 l1 ∧ hole_bridged comp h1 l1
  ∧ ((length l ≤ fuel + h)%nat → ¬ (h1 < (length l - 1) / 2)%nat).
Proof.
  induction fuel as [|fuel IH]; intros l h l1 h1; cbn [sift_down].
  - intros [= <- <-] Hh He Hb. repeat split; [done | done | lia].
  - destruct (Nat.ltb_spec h ((length l - 1) / 2)) as [Hlt|Hge];
      [|intros [= <- <-] Hh He Hb; repeat split; [done | done | lia]].
    destruct (l !! (2 * (h + 1))%nat) as [r|] eqn:Hr.
    2: { apply lookup_ge_None in Hr. lia. }
    destruct (l !! (2 * (h + 1) - 1)%nat) as [lft|] eqn:Hl.
    2: { apply lookup_ge_None in Hl. lia. }
    destruct (comp r lft) eqn:Hcmp; intros Hs Hh He Hb.
    + rewrite <- (length_insert l h lft) in Hs.
      destruct (IH _ _ _ _ Hs) as (He1 & Hb1 & Hex).
      * rewrite length_insert. by eapply lookup_lt_Some.
      * apply down_heap_except; [lia | lia | done | done | | done | done].
        intros s y Hs0 Hsp Hy.
        assert (s = (2 * (h + 1) - 1)%nat ∨ s = (2 * (h + 1))%nat)
          as [->| ->] by lia.
        -- rewrite Hl in Hy. injection Hy as <-. apply comp_irrefl.
        -- rewrite Hr in Hy. injection Hy as <-. by apply comp_asym.
      * apply down_hole_bridged; [lia | lia | done | done | done].
      * rewrite length_insert in Hex. repeat split; [done | done |].
        intros ?. apply Hex. lia.
    + rewrite <- (length_insert l h r) in Hs.
      destruct (IH _ _ _ _ Hs) as (He1 & Hb1 & Hex).
      * rewrite length_insert. by eapply lookup_lt_Some.
      * apply down_heap_except; [lia | lia | done | done | | done | done].
        intros s y Hs0 Hsp Hy.
        assert (s = (2 * (h + 1) - 1)%nat ∨ s = (2 * (h + 1))%nat)
          as [->| ->] by lia.
        -- rewrite Hl in Hy. by injection Hy as <-.
        -- rewrite Hr in Hy. injection Hy as <-. apply comp_irrefl.
      * apply down_hole_bridged; [lia | lia | done | done | done].
      * rewrite length_insert in Hex. repeat split; [done | done |].
        intros ?. apply Hex. lia.
Qed.

Lemma even_half n : Nat.even n = true → (n = 2 * (n / 2))%nat.
Proof. intros [k ->]%Nat.even_spec. lia. Qed.

Lemma odd_half n : Nat.even n = false → (n = 2 * (n / 2) + 1)%nat.
Proof.
  intros H. assert (Ho : Nat.odd n = true).
  { unfold Nat.odd. by rewrite H. }
  apply Nat.odd_spec in Ho as [k ->]. lia.
Qed.

(** After both loops the hole has no child left. *)
Lemma sift_last_inv (l : list A) h l1 h1 :
  sift_last l h (length l) = (l1, h1) →
  (h < length l)%nat → heap_except comp h l → hole_bridged comp h l →
  ¬ (h < (length l - 1) / 2)%nat →
  heap_except comp h1 l1 ∧ hole_bridged comp h1 l1
  ∧ (length l ≤ 2 * h1 + 1)%nat.
Proof.
  unfold sift_last. intros Hs Hh He Hb Hex.
  destruct (Nat.even (length l)) eqn:Hev; cbn [andb] in Hs.
  - apply even_half in Hev.
    destruct (Nat.eqb_spec h ((length l - 2) / 2)) as [Heq|Hne].
    + destruct (l !! (2 * (h + 1) - 1)%nat) as [c|] eqn:Hc.
      2: { apply lookup_ge_None in Hc. lia. }
      injection Hs as <- <-. split; [|split; [|lia]].
      * apply down_heap_except; [lia | lia | done | done | | done | done].
        intros s y Hs0 Hsp Hy.
        assert (s = (2 * (h + 1) - 1)%nat ∨ s = (2 * (h + 1))%nat)
          as [->| ->] by lia.
        -- rewrite Hc in Hy. injection Hy as <-. apply comp_irrefl.
        -- apply lookup_lt_Some in Hy. lia.
      * apply down_hole_bridged; [lia | lia | done | done | done].
    + injection Hs as <- <-. repeat split; [done | done | lia].
  - apply odd_half in Hev. injection Hs as <- <-.
    repeat split; [done | done | lia].
Qed.

(** [adjust_heap] from the root: whatever stands at the root is replaced
    by [value] and the result is a heap. *)
Lemma adjust_heap_root (l : list A) value :
  (0 < length l)%nat → heap_except comp 0 l →
  is_heap comp (adjust_heap comp l 0 value).
Proof.
  intros Hlen He. unfold adjust_heap.
  destruct (sift_down comp (length l) l 0 (length l)) as [l1 h1] eqn:E1.
  assert (Hb : hole_bridged comp 0 l) by (intros ???; lia).
  destruct (sift_down_inv _ _ _ _ _ E1 Hlen He Hb) as (He1 & Hb1 & Hex1).
  destruct (sift_down_perm _ _ _ _ _ value E1 Hlen) as (_ & Hh1 & Hlen1).
  rewrite <- Hlen1 in *.
  destruct (sift_last l1 h1 (length l1)) as [l2 h2] eqn:E2.
  destruct (sift_last_inv _ _ _ _ E2 Hh1 He1 Hb1) as (He2 & Hb2 & Hleaf).
  { apply Hex1. lia. }
  destruct (sift_last_perm _ _ _ _ value E2 Hh1) as (_ & Hh2 & Hlen2).
  apply push_heap_at_heap; [lia | done | done | done |].
  intros c x Hc0 Hcp Hx. apply lookup_lt_Some in Hx. lia.
Qed.

Lemma is_heap_heap_except (l : list A) h :
  is_heap comp l → heap_except comp h l.
Proof. intros H i p c ? _ _. by apply H. Qed.

Lemma heap_except_root_insert (l : list A) x :
  is_heap comp l → heap_except comp 0 (<[0%nat := x]> l).
Proof.
  intros H i p c Hi _ Hp Hq Hc.
  rewrite list_lookup_insert_ne in Hq by done.
  rewrite list_lookup_insert_ne in Hc by lia. by apply (H i).
Qed.

Lemma heap_except_take (l : list A) h n :
  heap_except comp h l → heap_except comp h (take n l).
Proof.
  intros H i p c Hi Hih Hp Hq Hc.
  rewrite lookup_take in Hq, Hc.
  repeat case_decide; try done. by apply (H i).
Qed.

(** The root of a heap does not compare less than any element. *)
Lemma is_heap_root (l : list A) root :
  is_heap comp l → l !! 0%nat = Some root →
  ∀ i x, l !! i = Some x → comp root x = false.
Proof.
  intros H Hr i. induction i as [i IH] using lt_wf_ind. intros x Hx.
  destruct (decide (i = 0)%nat) as [->|Hi].
  - rewrite Hr in Hx. injection Hx as <-. apply comp_irrefl.
  - destruct (lookup_lt_is_Some_2 l ((i - 1) / 2)%nat) as [p Hp].
    { apply lookup_lt_Some in Hx. lia. }
    apply (comp_trans _ p).
    + apply (IH ((i - 1) / 2)%nat); [lia | done].
    + apply (H i); [lia | done | done].
Qed.

Lemma push_heap_perm (l : list A) : push_heap comp l ≡ₚ l.
Proof.
  unfold push_heap. destruct (last l) as [value|] eqn:Hl; [|done].
  assert (Hlen : (0 < length l)%nat) by (destruct l; [done | simpl; lia]).
  rewrite push_heap_at_perm by lia.
  rewrite list_insert_id; [done|]. rewrite last_lookup in Hl.
  by replace (length l - 1)%nat with (pred (length l)) by lia.
Qed.

Lemma push_heap_heap (l : list A) x :
  is_heap comp l → is_heap comp (push_heap comp (l ++ [x])).
Proof.
  intros H. unfold push_heap. rewrite last_snoc, length_app. simpl.
  replace (length l + 1 - 1)%nat with (length l) by lia.
  apply push_heap_at_heap.
  - done.
  - rewrite length_app. simpl. lia.
  - intros i p c Hi Hih Hp Hq Hc.
    assert (i < length l)%nat.
    { apply lookup_lt_Some in Hc. rewrite length_app in Hc. simpl in Hc. lia. }
    rewrite lookup_app_l in Hq, Hc by lia. by apply (H i).
  - intros c g y _ Hc0 Hcp _ Hy. apply lookup_lt_Some in Hy.
    rewrite length_app in Hy. simpl in Hy. lia.
  - intros c y Hc0 Hcp Hy. apply lookup_lt_Some in Hy.
    rewrite length_app in Hy. simpl in Hy. lia.
Qed.

(** [pop_heap] moves the first element to the end; what is before it is a
    heap of the other elements.  The first element itself takes no part,
    so the property asked of the input leaves it out. *)
Lemma pop_heap_spec (root : A) rest :
  heap_except comp 0 (root :: rest) →
  ∃ X, pop_heap comp (root :: rest) = X ++ [root]
       ∧ is_heap comp X ∧ X ≡ₚ rest.
Proof.
  intros He. destruct rest as [|y rest'].
  - exists []. repeat split; [|done]. intros i p c _ Hp. done.
  - destruct (last (root :: y :: rest')) as [value|] eqn:Hl.
    2: { by rewrite !last_cons in Hl; destruct (last rest'). }
    unfold pop_heap. rewrite Hl.
    exists (adjust_heap comp (take (length (root :: y :: rest') - 1)
                               (root :: y :: rest')) 0 value).
    split; [done|].
    apply last_Some in Hl as [l' Hl'].
    destruct l' as [|r l'']; [done|]. injection Hl' as <- Hl'.
    rewrite Hl'.
    assert (Htake : take (length (root :: l'' ++ [value]) - 1)
                         (root :: l'' ++ [value]) = root :: l'').
    { simpl. rewrite length_app. simpl.
      replace (length l'' + 1 - 0)%nat with (S (length l'')) by lia.
      simpl. by rewrite take_app_length. }
    rewrite Htake. split.
    + apply adjust_heap_root; [simpl; lia|].
      rewrite <- Htake. apply heap_except_take. by rewrite <- Hl'.
    + rewrite adjust_heap_perm by (simpl; lia). simpl.
      by rewrite Permutation_cons_append.
Qed.

End HeapFacts.

Lemma StronglySorted_lookup_2 {A} (R : A → A → Prop) (l : list A) i j x y :
  StronglySorted R l → (i < j)%nat → l !! i = Some x → l !! j = Some y →
  R x y.
Proof.
  intros Hs. revert i j. induction Hs as [|a l Hs IH Hall]; intros i j Hij.
  - done.
  - destruct j as [|j]; [lia|]. destruct i as [|i]; simpl.
    + intros [= <-] Hy. rewrite Forall_forall in Hall. apply Hall.
      by eapply list_elem_of_lookup_2.
    + apply IH. lia.
Qed.

Section SchedulerFacts.

Context {W : Type}.
Implicit Types (ev : ClockEvent W) (q : list (ClockEvent W)).

Lemma clock_queue_cmp_false (a b : ClockEvent W) :
  clock_queue_cmp a b = false ↔
  tick a < tick b ∨ (tick a = tick b ∧ priority a ≤ priority b).
Proof.
  unfold clock_queue_cmp. rewrite orb_false_iff, andb_false_iff.
  rewrite !Z.ltb_ge, Z.eqb_neq. lia.
Qed.

Lemma clock_queue_cmp_asym (a b : ClockEvent W) :
  clock_queue_cmp a b = true → clock_queue_cmp b a = false.
Proof.
  intros H. apply clock_queue_cmp_false.
  destruct (clock_queue_cmp b a) eqn:E; [|by apply clock_queue_cmp_false].
  unfold clock_queue_cmp in *.
  apply orb_true_iff in H, E. rewrite !andb_true_iff in H, E.
  rewrite !Z.ltb_lt, !Z.eqb_eq in H, E. lia.
Qed.

Lemma clock_queue_cmp_trans (a b c : ClockEvent W) :
  clock_queue_cmp a b = false → clock_queue_cmp b c = false →
  clock_queue_cmp a c = false.
Proof. rewrite !clock_queue_cmp_false. lia. Qed.

Lemma requeue_spec ev next rest :
  is_heap clock_queue_cmp (ev :: rest) →
  is_heap clock_queue_cmp (requeue ev next (ev :: rest))
  ∧ (requeue ev next (ev :: rest) ≡ₚ rest
     ∨ ∃ t, requeue ev next (ev :: rest) ≡ₚ set_tick t ev :: rest).
Proof.
  intros H. unfold requeue. destruct (next =? 0).
  - destruct (pop_heap_spec clock_queue_cmp clock_queue_cmp_asym
                clock_queue_cmp_trans ev rest) as (X & -> & HX & Hp).
    { by apply is_heap_heap_except. }
    rewrite removelast_last. split; [done | by left].
  - set (ev' := set_tick _ ev).
    change (<[0%nat := ev']> (ev :: rest)) with (ev' :: rest).
    destruct (pop_heap_spec clock_queue_cmp clock_queue_cmp_asym
                clock_queue_cmp_trans ev' rest) as (X & -> & HX & Hp).
    { by apply (heap_except_root_insert clock_queue_cmp (ev :: rest) ev'). }
    split.
    + by apply push_heap_heap;
        [apply clock_queue_cmp_asym | apply clock_queue_cmp_trans |].
    + right. exists (tick ev'). rewrite push_heap_perm.
      rewrite <- Permutation_cons_append. by rewrite Hp.
Qed.

Lemma step_loop_heap fuel : ∀ now q (w : W) st q' w' fired,
  step_loop fuel now q w = (st, q', w', fired) →
  is_heap clock_queue_cmp q → is_heap clock_queue_cmp q'.
Proof.
  induction fuel as [|fuel IH]; intros now q w st q' w' fired; simpl.
  - by intros [= <- <- <- <-].
  - destruct q as [|ev rest]; [by intros [= <- <- <- <-]|].
    destruct (now <? tick ev); [by intros [= <- <- <- <-]|].
    destruct (callback ev w) as [w1 next].
    destruct (step_loop fuel now (requeue ev next (ev :: rest)) w1)
      as [[[st1 q1] w2] fired1] eqn:E.
    intros [= <- <- <- <-] Hh.
    apply (IH _ _ _ _ _ _ _ E). by apply requeue_spec.
Qed.

(** The priorities of the events one call of the loop fires never
    decrease.  [P] is the priority of the event fired last: an event that
    is due has at least that priority, and one that is overdue (it was
    re-armed into the past by a wrap-around) has exactly that priority. *)
Lemma step_loop_ordered fuel : ∀ now q (w : W) P st q' w' fired,
  step_loop fuel now q w = (st, q', w', fired) →
  is_heap clock_queue_cmp q →
  Forall (λ e, (tick e ≤ now → P ≤ priority e)
               ∧ (tick e < now → priority e = P)) q →
  Forall (λ f, P ≤ fired_priority f) fired
  ∧ StronglySorted (λ x y, fired_priority x ≤ fired_priority y) fired.
Proof.
  induction fuel as [|fuel IH]; intros now q w P st q' w' fired; simpl.
  - intros [= <- <- <- <-] Hh _. repeat split; [done | constructor].
  - destruct q as [|ev rest].
    + intros [= <- <- <- <-] Hh _. repeat split; [done | constructor].
    + destruct (Z.ltb_spec now (tick ev)) as [Hlt|Hdue].
      * intros [= <- <- <- <-] Hh _.
        repeat split; [done | constructor].
      * destruct (callback ev w) as [w1 next].
        destruct (step_loop fuel now (requeue ev next (ev :: rest)) w1)
          as [[[st1 q1] w2] fired1] eqn:E.
        intros [= <- <- <- <-] Hh Hinv.
        destruct (requeue_spec ev next rest Hh) as [Hh' Hperm].
        pose proof (is_heap_root clock_queue_cmp clock_queue_cmp_asym
                      clock_queue_cmp_trans _ ev Hh eq_refl) as Hroot.
        apply Forall_cons in Hinv as [[Hev1 Hev2] Hrest].
        assert (Hrest' : Forall (λ e, (tick e ≤ now → priority ev ≤ priority e)
                                   ∧ (tick e < now → priority e = priority ev))
                           rest).
        { rewrite Forall_lookup in Hrest. apply Forall_lookup.
          intros i e Hi. destruct (Hrest i e Hi) as [He1 He2].
          pose proof (Hroot (S i) e Hi) as Hle.
          apply clock_queue_cmp_false in Hle. lia. }
        destruct (IH _ _ _ (priority ev) _ _ _ _ E Hh') as (Hall & Hs).
        { destruct Hperm as [-> | [t ->]]; [done|].
          apply Forall_cons. split; [simpl; lia | done]. }
        split.
        -- apply Forall_cons. split; [simpl; lia|].
           eapply Forall_impl; [exact Hall|]. simpl. intros f Hf.
           specialize (Hev1 Hdue). lia.
        -- by constructor.
Qed.

Lemma reachable_is_heap (s : Sched W) :
  reachable s → is_heap clock_queue_cmp (clk_sys_queue s).
Proof.
  induction 1 as [s | s clk c cb ticks prio s' id _ IH Hs
                 | s fuel w s' w' fired _ IH Hs].
  - intros i p c _ Hp. done.
  - unfold schedule in Hs. destruct (getClockScale clk c =? 0); [done|].
    injection Hs as <- _. simpl.
    by apply push_heap_heap;
      [apply clock_queue_cmp_asym | apply clock_queue_cmp_trans |].
  - unfold step in Hs. destruct (clk_sys_queue s) as [|ev rest] eqn:Hq.
    + discriminate Hs.
    + destruct (step_loop fuel (tick ev) (ev :: rest) w)
        as [[[st1 q1] w2] fired1] eqn:E.
      injection Hs as _ <- _ _. simpl.
      by apply (step_loop_heap _ _ _ _ _ _ _ _ E).
Qed.

(** Within one call of [step] the priorities of the events fired never
    decrease. *)
Lemma step_sorted fuel (s : Sched W) w :
  is_heap clock_queue_cmp (clk_sys_queue s) →
  StronglySorted (λ x y, fired_priority x ≤ fired_priority y)
                 (step fuel s w).2.
Proof.
  intros Hh. unfold step. destruct (clk_sys_queue s) as [|ev rest] eqn:Hq.
  - constructor.
  - destruct (step_loop fuel (tick ev) (ev :: rest) w)
      as [[[st1 q1] w2] fired1] eqn:E. simpl.
    apply (step_loop_ordered _ _ _ _ (priority ev) _ _ _ _ E Hh).
    pose proof (is_heap_root clock_queue_cmp clock_queue_cmp_asym
                  clock_queue_cmp_trans _ ev Hh eq_refl) as Hroot.
    apply Forall_lookup. intros i e Hi.
    pose proof (Hroot i e Hi) as Hle. apply clock_queue_cmp_false in Hle.
    lia.
Qed.

(** C3 (amended). After any sequence of [schedule] and [step] calls, the
    events one call of [step] fires at the same tick fire in ascending
    priority order. *)
Theorem step_fires_in_priority_order fuel (s : Sched W) w :
  reachable s → priority_ordered (step fuel s w).2.
Proof.
  intros Hr i j x y Hij Hx Hy _.
  eapply (StronglySorted_lookup_2 _ _ i j x y
            (step_sorted fuel s w (reachable_is_heap s Hr))); done.
Qed.

End SchedulerFacts.

Lemma demo_schedule_reachable prio s :
  reachable s → reachable (demo_schedule prio s).
Proof.
  intros H. unfold demo_schedule.
  destruct (schedule clk_unlocked PER demo_callback 1 prio s)
    as [[s' id]|] eqn:E; [|done].
  by eapply reach_schedule.
Defined.

Lemma demo_sched_mixed_reachable : reachable demo_sched_mixed.
Proof.
  unfold demo_sched_mixed.
  do 4 apply demo_schedule_reachable. apply reach_reset.
Defined.

Lemma step_fires_in_priority_order_witness :
  reachable demo_sched_mixed
  ∧ priority_ordered (step 10 demo_sched_mixed tt).2
  ∧ map fired_priority (step 10 demo_sched_mixed tt).2 = [3; 3; 7; 9].
Proof.
  split; [exact demo_sched_mixed_reachable|].
  split; [|vm_compute; reflexivity].
  apply (step_fires_in_priority_order 10 demo_sched_mixed tt).
  exact demo_sched_mixed_reachable.
Defined.

(** C3 as stated fails for its second half: four events scheduled in the
    order 0, 1, 2, 3 for the same tick with the same priority fire in the
    order 0, 2, 3, 1. *)
Lemma equal_events_fire_out_of_insertion_order :
  reachable demo_sched
  ∧ map fired_id (step 10 demo_sched tt).2 = [0; 2; 3; 1]%nat
  ∧ map fired_tick (step 10 demo_sched tt).2 = [1; 1; 1; 1]
  ∧ map fired_priority (step 10 demo_sched tt).2 = [7; 7; 7; 7]
  ∧ ¬ insertion_ordered (step 10 demo_sched tt).2.
Proof.
  split.
  { unfold demo_sched. do 4 apply demo_schedule_reachable. apply reach_reset. }
  repeat split; try (vm_compute; reflexivity).
  intros H.
  assert (E1 : (step 10 demo_sched tt).2 !! 1%nat = Some (mkFired 2 1 7))
    by (vm_compute; reflexivity).
  assert (E2 : (step 10 demo_sched tt).2 !! 3%nat = Some (mkFired 1 1 7))
    by (vm_compute; reflexivity).
  specialize (H 1%nat 3%nat _ _ ltac:(lia) E1 E2 eq_refl eq_refl).
  simpl in H. lia.
Qed.

(** ** Rescaling the queue on a clock change *)

Section MakeHeapFacts.
Context {A : Type}.
Variable comp : A → A → bool.

Lemma adjust_heap_length (l : list A) h value :
  (h < length l)%nat → length (adjust_heap comp l h value) = length l.
Proof.
  intros Hh. rewrite (Permutation_length (adjust_heap_perm comp l h value Hh)).
  by rewrite length_insert.
Qed.

Lemma make_heap_from_perm parent : ∀ l : list A,
  make_heap_from comp parent l ≡ₚ l.
Proof.
  induction parent as [|p IH]; intros l; cbn [make_heap_from].
  - destruct (l !! 0%nat) as [v|] eqn:E; [|reflexivity].
    rewrite adjust_heap_perm by (by eapply lookup_lt_Some).
    by rewrite list_insert_id.
  - rewrite IH.
    destruct (l !! S p) as [v|] eqn:E; [|reflexivity].
    rewrite adjust_heap_perm by (by eapply lookup_lt_Some).
    by rewrite list_insert_id.
Qed.

Lemma make_heap_perm (l : list A) : make_heap comp l ≡ₚ l.
Proof.
  unfold make_heap. case_match; [reflexivity|apply make_heap_from_perm].
Qed.
End MakeHeapFacts.

Section RescaleFacts.
Context {W : Type}.
Implicit Types (ev : ClockEvent W) (q : list (ClockEvent W)).

Lemma wrap32_small x : 0 ≤ x < 2 ^ 32 → wrap32 x = x.
Proof. intros H. unfold wrap32. apply Z.mod_small. lia. Qed.

Lemma wrap32_range x : 0 ≤ wrap32 x < 2 ^ 32.
Proof. unfold wrap32. apply Z.mod_pos_bound. lia. Qed.

Lemma wrap32_add_sub now x : wrap32 (wrap32 (now + x) - now) = wrap32 x.
Proof.
  unfold wrap32. rewrite Zminus_mod_idemp_l. f_equal. lia.
Qed.

Lemma rescale_spec clk now ev :
  rescalable clk now ev →
  ∃ ev', rescale clk now ev = Some ev' ∧ rescaled clk now ev ev'.
Proof.
  intros Hr. unfold rescale.
  destruct (scale ev =? getClockScale clk (clock ev)) eqn:E.
  { apply Z.eqb_eq in E. exists ev. split; [done|].
    unfold rescaled. repeat split; try done. }
  apply Z.eqb_neq in E.
  destruct (Hr E) as (Hs & Hsc & Hmod & Hov & Hdt).
  pose proof (wrap32_range (tick ev - now)) as Hd.
  assert ((scale ev =? 0) = false) as -> by lia.
  rewrite Hmod. cbn [negb Z.eqb].
  eexists. split; [reflexivity|].
  assert (Hw : wrap32 (tick ev - now + scale ev - 1)
               = wrap32 (tick ev - now) + scale ev - 1).
  { rewrite <- (wrap32_small (wrap32 (tick ev - now) + scale ev - 1)) by lia.
    unfold wrap32.
    replace (tick ev - now + scale ev - 1)
      with ((tick ev - now) + (scale ev - 1)) by lia.
    replace ((tick ev - now) mod 2 ^ 32 + scale ev - 1)
      with ((tick ev - now) mod 2 ^ 32 + (scale ev - 1)) by lia.
    by rewrite Zplus_mod_idemp_l. }
  assert (Hceil : (wrap32 (tick ev - now) + scale ev - 1) / scale ev
                  = wrap32 (tick ev - now) / scale ev).
  { apply Z.mod_divide in Hmod; [|lia]. destruct Hmod as [k Hk].
    rewrite Hk. replace (k * scale ev + scale ev - 1)
      with ((scale ev - 1) + k * scale ev) by lia.
    rewrite Z.div_add, Z.div_mul by lia. rewrite Z.div_small; lia. }
  unfold rescaled, domain_ticks_left. cbn.
  repeat split; try done.
  - by rewrite Hw.
  - rewrite Hw, Hceil, wrap32_add_sub.
    rewrite wrap32_small.
    + by rewrite Z.div_mul by lia.
    + split; [|done]. apply Z.mul_nonneg_nonneg; [|lia].
      apply Z.div_pos; lia.
Qed.

(** C4, amended: when every event whose scale differs from that of its
    clock is a whole number [dt] of old ticks away, and neither the
    rounding-up nor [dt * new_scale] overflows [unsigned int],
    [onClockConfigChange] returns, keeps the SYS tick, and its queue is a
    rearrangement of the old events re-expressed one by one: the tick of a
    changed event is [now + ceil(distance / old_scale) * new_scale]
    (modulo [2^32]), its scale the new one, and every event is as many
    domain ticks away from firing as before. *)
Theorem onClockConfigChange_preserves_domain_ticks clk (s : Sched W) :
  Forall (rescalable clk (clk_sys_tick s)) (clk_sys_queue s) →
  ∃ s' q, onClockConfigChange clk s = Some s'
    ∧ clk_sys_tick s' = clk_sys_tick s
    ∧ clk_sys_queue s' ≡ₚ q
    ∧ Forall2 (rescaled clk (clk_sys_tick s)) (clk_sys_queue s) q.
Proof.
  intros H. unfold onClockConfigChange.
  assert (∃ q, mapM (rescale clk (clk_sys_tick s)) (clk_sys_queue s) = Some q
               ∧ Forall2 (rescaled clk (clk_sys_tick s)) (clk_sys_queue s) q)
    as (q & -> & Hq).
  { induction H as [|ev l Hev _ (q & Eq & Hq)].
    - by exists [].
    - destruct (rescale_spec clk _ ev Hev) as (ev' & E & Hev').
      exists (ev' :: q). split; [|by constructor].
      cbn. rewrite E. cbn. rewrite Eq. done. }
  eexists _, q. split; [reflexivity|]. cbn.
  split; [done|]. split; [apply make_heap_perm|done].
Qed.

End RescaleFacts.

Lemma onClockConfigChange_preserves_domain_ticks_witness :
  Forall (rescalable clk_div4 (clk_sys_tick demo_sched_per))
         (clk_sys_queue demo_sched_per)
  ∧ (∃ s' q, onClockConfigChange clk_div4 demo_sched_per = Some s'
    ∧ clk_sys_tick s' = clk_sys_tick demo_sched_per
    ∧ clk_sys_queue s' ≡ₚ q
    ∧ Forall2 (rescaled clk_div4 (clk_sys_tick demo_sched_per))
              (clk_sys_queue demo_sched_per) q).
Proof.
  assert (H : Forall (rescalable clk_div4 (clk_sys_tick demo_sched_per))
                (clk_sys_queue demo_sched_per)).
  { repeat constructor; vm_compute; congruence. }
  split; [exact H|].
  exact (onClockConfigChange_preserves_domain_ticks clk_div4 demo_sched_per H).
Defined.

(** C4 as stated fails: an event scheduled [2^31] ticks ahead on the
    undivided PER clock satisfies the precondition, yet after the clock
    is divided by two its tick is [0], not [2^31 * 2], and no domain tick
    is left of the [2^31]. *)
Lemma rescale_overflows_far_event :
  ∃ ev ev',
    clk_sys_queue demo_sched_far = [ev]
    ∧ scale ev ≠ getClockScale clk_div2 (clock ev)
    ∧ wrap32 (tick ev - clk_sys_tick demo_sched_far) mod scale ev = 0
    ∧ option_map clk_sys_queue (onClockConfigChange clk_div2 demo_sched_far)
      = Some [ev']
    ∧ tick ev' = 0
    ∧ domain_ticks_left 0 ev = 0x80000000
    ∧ domain_ticks_left 0 ev' = 0.
Proof.
  eexists _, _. split; [vm_compute; reflexivity|].
  repeat split; vm_compute; congruence.
Qed.
